(** * pygraphdb.table_sql: the relational graph store [PlainSQL]

    A shallow embedding of [src/pygraphdb/table_sql.py] over the store its
    default url and [table_sqlite.py] name, SQLite.  The SQLAlchemy session
    the class drives is modelled as explicit state: the committed tables,
    the view of the transaction in flight, what the unit of work still has
    to flush, and a schedule of storage faults.  Every method of [PlainSQL]
    is a computation in a small state-and-exception monad over that
    session. *)

From Stdlib Require Import ZArith List String.
From Stdlib Require Import Floats.SpecFloat.
From stdpp Require Import gmap strings list.

Local Open Scope Z_scope.

(** ** Column types *)

(** Weights are Python floats, IEEE-754 binary64, and [func.sum] adds them
    as such. *)
Definition float : Type := spec_float.
Definition float_prec : Z := 53.
Definition float_emax : Z := 1024.

Definition float_add (x y : float) : float := SFadd float_prec float_emax x y.

Definition float_zero : float := S754_zero false.

#[global] Instance float_eq_dec : EqDecision float.
Proof. solve_decision. Defined.

(** The double [m * 2^e]. *)
Definition float_of_dyadic (m e : Z) : float :=
  binary_normalize float_prec float_emax m e false.

(** ** Edges *)

(** Modelled from the spec: [pygraphdb.edge.Edge], the plain edge record
    (its module is not part of the sources).  It carries an optional id,
    the two endpoints, a weight and the opaque attributes payload, and is
    read by key ([e['v_from']], [e['v_to']], [e['weight']], [e['_id']]). *)
Record Edge : Type := mkEdge {
  edge_id : option Z;
  edge_v_from : Z;
  edge_v_to : Z;
  edge_weight : float;
  edge_attributes : option string
}.

(** A row of [table_edges] or [new_edges], and the state of a mapped
    instance of [EdgeSQL] or [EdgeNew]: one value per column.

    In a stored row [None] is NULL.  The [weight] column is nullable too:
    SQLite keeps a NaN as NULL, so a stored weight that is NaN stands for
    NULL.

    On an instance handed to the store, [_id = None] is an instance without
    primary key and [attributes_json = None] an attribute that was never
    set, which is how the constructor leaves it.  The instances handed in
    are transient: built by the caller, not obtained from the session. *)
Record Row : Type := mkRow {
  _id : option Z;
  v_from : Z;
  v_to : Z;
  weight : float;
  attributes_json : option string
}.

(** The two mapped classes: [EdgeSQL] lives in [table_edges], [EdgeNew] in
    the unindexed [new_edges]. *)
Inductive entity_class : Type := EdgeSQL | EdgeNew.

Definition entity : Type := (entity_class * Row)%type.

(** What callers hand to the store: an instance of a mapped class
    ([isinstance(e, BaseEntitySQL)]) or anything else that is read by key. *)
Inductive edge_arg : Type :=
  | Mapped (m : entity)
  | Plain (e : Edge).

Definition __tablename__ (c : entity_class) : string :=
  match c with
  | EdgeSQL => "table_edges"
  | EdgeNew => "new_edges"
  end%string.

(** Modelled from the spec: [Edge.__init__(v_from, v_to, weight)] as the
    mapped classes call it.  No id is given, so the instance has no primary
    key, and no attributes are given, so [attributes_json] is left
    unset. *)
Definition Edge__init__ (a b : Z) (w : float) : Row :=
  {| _id := None; v_from := a; v_to := b; weight := w;
     attributes_json := None |}.

(** ** The session *)

Record Tables : Type := mkTables {
  table_edges : list Row;
  new_edges : list Row
}.

(** What the unit of work of the session is up to.
    - [Ready]: the transaction is usable and nothing waits that the store
      would refuse.
    - [Unflushable]: an instance without primary key was merged and waits
      for the flush, which the store will refuse ([_id] is a [BigInteger]
      primary key: SQLite assigns no value to it).
    - [Inactive pending]: a flush or commit failed; the transaction was
      rolled back and every statement is refused until [rollback()].
      [pending] tells whether an instance without primary key was merged
      since. *)
Inductive session_status : Type :=
  | Ready
  | Unflushable
  | Inactive (pending : bool).

Record Session : Type := MkSession {
  committed : Tables;       (* what the database holds *)
  current : Tables;         (* the view inside the transaction in flight *)
  status : session_status;
  faults : list bool        (* outcome of the coming commits: true = fails *)
}.

(** Only [rollback()] gets the session going again. *)
Definition needs_rollback (s : Session) : bool :=
  match status s with
  | Ready => false
  | Unflushable | Inactive _ => true
  end.

(** The session over the given tables, waiting for [rollback()] after a
    failure or ready, with nothing pending. *)
Definition mkSession (c t : Tables) (waiting : bool) (fs : list bool) : Session :=
  MkSession c t (if waiting then Inactive false else Ready) fs.

Definition empty_tables : Tables := mkTables [] [].

(** A store just opened on an empty database. *)
Definition fresh_session (fs : list bool) : Session :=
  mkSession empty_tables empty_tables false fs.

Definition active (s : Session) : Prop := needs_rollback s = false.

(** ** Exceptions and the monad *)

Inductive exn : Type :=
  | NameError (name : string)
  | InvalidRequestError
  | OperationalError
  | IntegrityError.

Inductive outcome (A : Type) : Type :=
  | Return (a : A)
  | Raise (e : exn).
Arguments Return {A} a.
Arguments Raise {A} e.

Definition M (A : Type) : Type := Session -> outcome A * Session.

Definition ret {A} (a : A) : M A := fun s => (Return a, s).

Definition raise {A} (e : exn) : M A := fun s => (Raise e, s).

Definition bind {A B} (m : M A) (k : A -> M B) : M B :=
  fun s =>
    match m s with
    | (Return a, s') => k a s'
    | (Raise e, s') => (Raise e, s')
    end.

(** [try: m  except: h] *)
Definition try_except {A} (m : M A) (h : exn -> M A) : M A :=
  fun s =>
    match m s with
    | (Return a, s') => (Return a, s')
    | (Raise e, s') => h e s'
    end.

Declare Scope py_scope.
Delimit Scope py_scope with py.
Notation "x <- c1 ;; c2" := (bind c1 (fun x => c2))
  (at level 100, c1 at next level, right associativity) : py_scope.
Notation "c1 ;; c2" := (bind c1 (fun _ => c2))
  (at level 100, right associativity) : py_scope.
Local Open Scope py_scope.

(** [for x in xs: body x] *)
Fixpoint for_each {A} (xs : list A) (body : A -> M unit) : M unit :=
  match xs with
  | [] => ret tt
  | x :: xs' => body x ;; for_each xs' body
  end.

(** ** Tables *)

Definition has_id (k : Z) (r : Row) : Prop := _id r = Some k.

#[global] Instance has_id_dec k r : Decision (has_id k r).
Proof. unfold has_id. apply _. Defined.

Definition ids (rows : list Row) : list Z := omap _id rows.

(** [Session.merge] onto the stored row: the attributes that are set on
    the instance are copied, a column the instance leaves unset keeps what
    is stored. *)
Definition merged_onto (r stored : Row) : Row :=
  {| _id := _id stored;
     v_from := v_from r;
     v_to := v_to r;
     weight := weight r;
     attributes_json := match attributes_json r with
                        | Some a => Some a
                        | None => attributes_json stored
                        end |}.

(** [UPDATE ... WHERE _id = k]: the row keeps its place. *)
Fixpoint update_row (k : Z) (r : Row) (rows : list Row) : list Row :=
  match rows with
  | [] => []
  | x :: rows' =>
      if decide (has_id k x) then merged_onto r x :: rows'
      else x :: update_row k r rows'
  end.

(** What [Session.merge] of an instance with a primary key, followed by the
    flush, does to the table of the instance's class: the row stored under
    the key is updated, and an instance whose key is not stored becomes a
    new row, its unset columns NULL.  An instance without primary key never
    gets into the table. *)
Definition merge_row (r : Row) (rows : list Row) : list Row :=
  match _id r with
  | Some k =>
      if decide (k ∈ ids rows) then update_row k r rows else rows ++ [r]
  | None => rows
  end.

(** What a query with two alternatives lists: SQLite answers
    [WHERE P OR Q] over the two indexed columns one alternative after the
    other, the rows of [P] first and then those of [Q] it has not listed
    yet, each in the order of the table. *)
Definition select_or (P Q : Row -> Prop)
    `{forall r, Decision (P r), forall r, Decision (Q r)}
    (rows : list Row) : list Row :=
  filter P rows ++ filter (fun r => Q r ∧ ¬ P r) rows.

Definition same_key (r x : Row) : Prop := _id x = _id r.

#[global] Instance same_key_dec r x : Decision (same_key r x).
Proof. unfold same_key. apply _. Defined.

(** [REPLACE INTO target SELECT * FROM source]: each source row displaces
    the target row with its key and is inserted. *)
Definition replace_into (source target : list Row) : list Row :=
  fold_left (fun acc r => filter (fun x => ¬ same_key r x) acc ++ [r])
            source target.

Definition table_of (c : entity_class) (t : Tables) : list Row :=
  match c with
  | EdgeSQL => table_edges t
  | EdgeNew => new_edges t
  end.

Definition set_table (c : entity_class) (rows : list Row) (t : Tables) : Tables :=
  match c with
  | EdgeSQL => mkTables rows (new_edges t)
  | EdgeNew => mkTables (table_edges t) rows
  end.

Definition class_of_table (name : string) : option entity_class :=
  if decide (name = __tablename__ EdgeSQL) then Some EdgeSQL
  else if decide (name = __tablename__ EdgeNew) then Some EdgeNew
  else None.

(** ** Session primitives *)

(** The state a failed flush or commit leaves: the transaction is rolled
    back, what was pending is gone and the session waits for
    [rollback()]. *)
Definition fail_flush (fs : list bool) (s : Session) : Session :=
  mkSession (committed s) (committed s) true fs.

(** [Session.flush()], as the autoflush calls it.  With nothing to flush it
    does nothing, on an inactive session too; an instance without primary
    key is refused by the store; on an inactive session pending work cannot
    even begin. *)
Definition session_flush : M unit :=
  fun s =>
    match status s with
    | Ready | Inactive false => (Return tt, s)
    | Unflushable => (Raise IntegrityError, fail_flush (faults s) s)
    | Inactive true => (Raise InvalidRequestError, s)
    end.

(** A statement sent to the database.  Once a flush has failed, the session
    refuses every statement until [rollback()] is called. *)
Definition send {A} (m : M A) : M A :=
  fun s =>
    match status s with
    | Inactive _ => (Raise InvalidRequestError, s)
    | Ready | Unflushable => m s
    end.

(** A statement of a [Query]: the session autoflushes first. *)
Definition guard {A} (m : M A) : M A :=
  session_flush ;; send m.

(** [session.query(...)...all()/first()/count()] *)
Definition session_query {A} (q : Tables -> A) : M A :=
  guard (fun s => (Return (q (current s)), s)).

Definition set_current (t : Tables) (s : Session) : Session :=
  MkSession (committed s) t (status s) (faults s).

(** An instance without primary key joins the pending work. *)
Definition add_pending (s : Session) : Session :=
  MkSession (committed s) (current s)
            (match status s with
             | Ready | Unflushable => Unflushable
             | Inactive _ => Inactive true
             end)
            (faults s).

(** [session.merge(e)]: the session autoflushes; an instance with a primary
    key is looked up by a statement and merged onto the row, an instance
    without one is added as it is, which sends nothing. *)
Definition session_merge (m : entity) : M unit :=
  session_flush ;;
  match _id (snd m) with
  | Some _ =>
      send (fun s =>
        let c := fst m in
        (Return tt,
         set_current (set_table c (merge_row (snd m) (table_of c (current s)))
                                (current s)) s))
  | None => fun s => (Return tt, add_pending s)
  end.

(** [session.query(cls).filter(P).delete()]: the number of rows removed. *)
Definition session_delete (c : entity_class) (P : Row -> Prop)
    `{forall r, Decision (P r)} : M Z :=
  guard (fun s =>
    let rows := table_of c (current s) in
    (Return (Z.of_nat (length (filter P rows))),
     set_current (set_table c (filter (fun r => ¬ P r) rows) (current s)) s)).

(** [session.commit()]: refused on an inactive session.  Otherwise the next
    entry of the fault schedule decides whether the storage fails, which
    shows at the first statement the commit sends; if it does not, the
    flush fails on an instance without primary key, and else the
    transaction is committed.  A failure rolls the database transaction
    back and leaves the session waiting for [rollback()]. *)
Definition session_commit : M unit :=
  fun s =>
    match status s with
    | Inactive _ => (Raise InvalidRequestError, s)
    | Unflushable =>
        match faults s with
        | true :: fs => (Raise OperationalError, fail_flush fs s)
        | false :: fs => (Raise IntegrityError, fail_flush fs s)
        | [] => (Raise IntegrityError, fail_flush [] s)
        end
    | Ready =>
        match faults s with
        | true :: fs => (Raise OperationalError, fail_flush fs s)
        | false :: fs =>
            (Return tt, mkSession (current s) (current s) false fs)
        | [] =>
            (Return tt, mkSession (current s) (current s) false [])
        end
    end.

(** [session.rollback()] *)
Definition session_rollback : M unit :=
  fun s => (Return tt, mkSession (committed s) (committed s) false (faults s)).

Inductive statement : Type :=
  | ReplaceInto (target source : string)
  | DeleteFrom (table : string).

(** [session.execute(stmt)]: a statement of the session itself, which does
    not autoflush. *)
Definition session_execute (stmt : statement) : M unit :=
  send (fun s =>
    match stmt with
    | ReplaceInto target source =>
        match class_of_table target, class_of_table source with
        | Some ct, Some cs =>
            (Return tt,
             set_current (set_table ct (replace_into (table_of cs (current s))
                                                     (table_of ct (current s)))
                                    (current s)) s)
        | _, _ => (Raise OperationalError, s)
        end
    | DeleteFrom table =>
        match class_of_table table with
        | Some c => (Return tt, set_current (set_table c [] (current s)) s)
        | None => (Raise OperationalError, s)
        end
    end).

(** Reading a name: the local bindings are searched; a name bound nowhere
    raises [NameError]. *)
Fixpoint load_name {A} (scope : list (string * A)) (name : string) : M A :=
  match scope with
  | [] => raise (NameError name)
  | (n, v) :: scope' =>
      if decide (n = name) then ret v else load_name scope' name
  end.

(** ** Helpers *)

(** Modelled from the spec: [pygraphdb.helpers.chunks], which partitions
    the input sequence into chunks of [size] items, the last one shorter
    when the input runs out (the helpers module is not part of the
    sources). *)
Fixpoint chunks_acc {A} (size : nat) (cur : list A) (l : list A) : list (list A) :=
  match l with
  | [] => match cur with [] => [] | _ => [cur] end
  | x :: l' =>
      let cur' := cur ++ [x] in
      if decide (length cur' = size) then cur' :: chunks_acc size [] l'
      else chunks_acc size cur' l'
  end.

Definition chunks {A} (l : list A) (size : nat) : list (list A) :=
  chunks_acc size [] l.

(** ** [PlainSQL] *)

Definition __max_batch_size__ : nat := 5000.

(** The default of the keyword argument [e_type] of [_to_sql]. *)
Definition e_type_default : entity_class := EdgeSQL.

Definition _to_sql (e : edge_arg) (e_type : entity_class) : entity :=
  match e with
  | Mapped m => m
  | Plain e =>
      (e_type, Edge__init__ (edge_v_from e) (edge_v_to e) (edge_weight e))
  end.

(** *** Relatives *)

Definition find_edge (a b : Z) : M (option Row) :=
  session_query (fun t =>
    head (filter (fun e => v_from e = a ∧ v_to e = b) (table_edges t))).

Definition find_edge_or_inv (v1 v2 : Z) : M (list Row) :=
  session_query (fun t =>
    select_or (fun e => v_from e = v1 ∧ v_to e = v2)
              (fun e => v_from e = v2 ∧ v_to e = v1) (table_edges t)).

Definition edges_from (v : Z) : M (list Row) :=
  session_query (fun t => filter (fun e => v_from e = v) (table_edges t)).

Definition edges_to (v : Z) : M (list Row) :=
  session_query (fun t => filter (fun e => v_to e = v) (table_edges t)).

Definition edges_related (v : Z) : M (list Row) :=
  session_query (fun t =>
    select_or (fun e => v_from e = v) (fun e => v_to e = v) (table_edges t)).

(** A row of a query that selects one column: the 1-tuple [(v,)]. *)
Inductive row1 : Type := Row1 (v : Z).

Definition row1_value (r : row1) : Z := match r with Row1 v => v end.

#[global] Instance row1_eq_dec : EqDecision row1.
Proof. solve_decision. Defined.

#[global] Instance row1_countable : Countable row1.
Proof. apply (inj_countable' row1_value Row1). intros []. reflexivity. Defined.

(** [session.query(column).distinct().all()] *)
Definition select_distinct (column : Row -> Z) (rows : list Row) : list row1 :=
  remove_dups ((fun e => Row1 (column e)) <$> rows).

Definition all_vertexes : M (gset row1) :=
  all_froms <- session_query (fun t => select_distinct v_from (table_edges t)) ;;
  all_tos <- session_query (fun t => select_distinct v_to (table_edges t)) ;;
  ret (list_to_set all_froms ∪ list_to_set all_tos).

(** *** Wider range of neighbors *)

(** One turn of the loop over the selected edges. *)
Definition related_step (vs : list Z) (result : gset Z) (e : Row) : gset Z :=
  if decide (v_from e ∉ vs) then {[v_from e]} ∪ result
  else if decide (v_to e ∉ vs) then {[v_to e]} ∪ result
  else result.

Definition nodes_related_to_group (vs : list Z) : M (gset Z) :=
  edges <- session_query (fun t =>
    filter (fun e => v_from e ∈ vs ∨ v_to e ∈ vs) (table_edges t)) ;;
  ret (fold_left (related_step vs) edges ∅).

(** *** Metadata *)

Definition count_nodes : M Z :=
  vs <- all_vertexes ;;
  ret (Z.of_nat (size vs)).

Definition count_edges : M Z :=
  session_query (fun t => Z.of_nat (length (table_edges t))).

(** [func.sum] over the values of a column that are not NULL: no value over
    no value, and else the values added up from 0.0 in the order of the
    rows; a total that is NaN comes out as NULL. *)
Definition sql_sum (ws : list float) : option float :=
  match ws with
  | [] => None
  | _ :: _ =>
      let total := fold_left float_add ws float_zero in
      if decide (total = S754_nan) then None else Some total
  end.

(** [func.count(EdgeSQL.weight)] and [func.sum(EdgeSQL.weight)] over the
    selected rows; the one row the aggregate query yields.  Both skip the
    rows whose weight is NULL. *)
Definition count_and_sum (rows : list Row) : Z * option float :=
  let ws := filter (fun w => w ≠ S754_nan) (weight <$> rows) in
  (Z.of_nat (length ws), sql_sum ws).

Definition count_related (v : Z) : M (Z * option float) :=
  session_query (fun t =>
    count_and_sum (select_or (fun e => v_from e = v) (fun e => v_to e = v)
                             (table_edges t))).

Definition count_followers (v : Z) : M (Z * option float) :=
  session_query (fun t =>
    count_and_sum (filter (fun e => v_to e = v) (table_edges t))).

Definition count_following (v : Z) : M (Z * option float) :=
  session_query (fun t =>
    count_and_sum (filter (fun e => v_from e = v) (table_edges t))).

(** *** Modifications *)

Definition insert_edge (e : edge_arg) : M unit :=
  let e := _to_sql e EdgeSQL in
  session_merge e ;;
  session_commit.

Definition insert_edges (es : list edge_arg) : M Z :=
  for_each es (fun e =>
    let e := _to_sql e EdgeSQL in
    session_merge e) ;;
  try_except
    (session_commit ;;
     ret (Z.of_nat (length es)))
    (fun _ => ret 0).

Definition remove_node (v : Z) : M Z :=
  try_except
    (count <- session_delete EdgeSQL (fun e => v_from e = v ∨ v_to e = v) ;;
     session_commit ;;
     ret count)
    (fun _ =>
     session_rollback ;;
     ret 0).

(** The handler of [remove_all] has no [return]: [None] comes back. *)
Definition remove_all : M (option Z) :=
  try_except
    (let count := 0 in
     n1 <- session_delete EdgeSQL (fun _ => True) ;;
     let count := count + n1 in
     n2 <- session_delete EdgeNew (fun _ => True) ;;
     let count := count + n2 in
     session_commit ;;
     ret (Some count))
    (fun _ =>
     session_rollback ;;
     ret None).

(** [insert_table] builds the statement under the name [migration] and then
    executes the name [step], which the function never binds and the module
    never defines. *)
Definition insert_table (source_name : string) : M unit :=
  let migration := ReplaceInto (__tablename__ EdgeSQL) source_name in
  step <- load_name [("migration"%string, migration)] "step" ;;
  session_execute step ;;
  session_commit.

Definition flush_temporary_table : M unit :=
  session_execute (DeleteFrom (__tablename__ EdgeNew)) ;;
  session_commit.

(** [insert_dump(path)]; [dump] is the sequence of records that
    [yield_edges_from(path)] reads from the file. *)
Definition insert_dump (dump : list edge_arg) : M Z :=
  try_except
    (cnt <- count_edges ;;
     let chunk_len := __max_batch_size__ in
     for_each (chunks dump chunk_len) (fun es =>
       let es := (fun e => Mapped (_to_sql e e_type_default)) <$> es in
       insert_edges es ;;
       ret tt) ;;
     session_commit ;;
     insert_table (__tablename__ EdgeNew) ;;
     flush_temporary_table ;;
     cnt' <- count_edges ;;
     ret (cnt' - cnt))
    (fun e =>
     session_rollback ;;
     ret 0).

(** *** Removal by record *)

(** [remove_edge] reads its argument by key only (['_id' in e],
    [e['_id']], [e['v_from']], [e['v_to']]): the argument is the mapping
    from the keys it holds to their integer values. *)
Inductive key_error : Type := KeyError (key : string).

(** [e[key]] *)
Definition getitem (e : gmap string Z) (key : string) : key_error + Z :=
  match e !! key with
  | Some v => inr v
  | None => inl (KeyError key)
  end.

(** [remove_edge] has no handler and returns nothing.  A [KeyError] leaves
    it while the arguments of [filter_by] are evaluated, before any statement
    is issued; it is the left outcome of the call. *)
Definition remove_edge (e : gmap string Z) : M (key_error + unit) :=
  if decide (is_Some (e !! "_id"%string)) then
    match getitem e "_id" with
    | inl err => ret (inl err)
    | inr k =>
        session_delete EdgeSQL (fun r => _id r = Some k) ;;
        session_commit ;;
        ret (inr tt)
    end
  else
    match getitem e "v_from" with
    | inl err => ret (inl err)
    | inr a =>
        match getitem e "v_to" with
        | inl err => ret (inl err)
        | inr b =>
            session_delete EdgeSQL (fun r => v_from r = a ∧ v_to r = b) ;;
            session_commit ;;
            ret (inr tt)
        end
    end.

(** ** [SQLite] *)

(** [session.execute(p)] of a [PRAGMA]: a statement that touches no table. *)
Definition session_execute_pragma (p : string) : M unit :=
  send (ret tt).

Definition pragmas : list string :=
  [ "PRAGMA main.page_size=4096;";
    "PRAGMA main.cache_size=10000;";
    "PRAGMA main.locking_mode=EXCLUSIVE;";
    "PRAGMA main.journal_mode=WAL;";
    "PRAGMA main.temp_store=MEMORY;" ]%string.

Definition set_pragmas_on_first_launch : M unit :=
  n <- count_edges ;;
  if decide (n > 0) then ret tt
  else
    for_each pragmas (fun p =>
      session_execute_pragma p ;;
      session_commit).

(** ** Vocabulary of the further properties *)

(** The edge touches the vertex. *)
Definition touches (v : Z) (e : Row) : Prop := v_from e = v ∨ v_to e = v.

(** A table whose primary key is sound: every row has a key and no two rows
    share one. *)
Definition keyed (rows : list Row) : Prop :=
  NoDup (ids rows) ∧ Forall (fun r => is_Some (_id r)) rows.

Definition well_keyed (t : Tables) : Prop :=
  keyed (table_edges t) ∧ keyed (new_edges t).

(** Both what the database holds and what the transaction sees are
    well keyed. *)
Definition session_wf (s : Session) : Prop :=
  well_keyed (committed s) ∧ well_keyed (current s).

(** A computation that keeps [session_wf], whatever it returns or raises. *)
Definition preserves {A} (m : M A) : Prop :=
  forall s, session_wf s -> session_wf (snd (m s)).

(** From the session [s] the computation leaves the database as it is and
    a session that takes no commit before a rollback. *)
Definition sticks {A} (m : M A) (s : Session) : Prop :=
  committed (snd (m s)) = committed s ∧ needs_rollback (snd (m s)) = true.

(** A computation that cannot get a session going again that takes no
    commit, nor change the database from it. *)
Definition keeps_stuck {A} (m : M A) : Prop :=
  forall s, needs_rollback s = true -> sticks m s.

(** Running a computation for its final session. *)
Definition exec {A} (m : M A) (s : Session) : Session := snd (m s).

(** The primary table the database holds once [m] has run. *)
Definition stored_after {A} (m : M A) (s : Session) : list Row :=
  table_edges (committed (exec m s)).

(** The tables after the instances are merged in turn, each into the table
    of its class. *)
Definition merge_entities (ms : list entity) (t : Tables) : Tables :=
  fold_left (fun t m =>
               set_table (fst m) (merge_row (snd m) (table_of (fst m) t)) t)
            ms t.

(** The chunk stage of [insert_dump]. *)
Definition stage_chunks (cs : list (list edge_arg)) : M unit :=
  for_each cs (fun es =>
    let es := (fun e => Mapped (_to_sql e e_type_default)) <$> es in
    insert_edges es ;;
    ret tt).

(** A record that is not an instance of a mapped class. *)
Definition is_plain (e : edge_arg) : Prop :=
  match e with
  | Plain _ => True
  | Mapped _ => False
  end.

(** What [insert_edge] and [insert_edges] merge for the argument [e]. *)
Definition converted (e : edge_arg) : entity := _to_sql e EdgeSQL.

(** The argument reaches the session with a primary key. *)
Definition with_key (e : edge_arg) : Prop := is_Some (_id (snd (converted e))).

#[global] Instance with_key_dec e : Decision (with_key e).
Proof. unfold with_key. apply _. Defined.

(** The edges whose weight is stored, that is, not NULL. *)
Definition weighted (es : list Row) : list Row :=
  filter (fun e => weight e ≠ S754_nan) es.

(** The weights added one after the other to a running total. *)
Fixpoint running_total (total : float) (ws : list float) : float :=
  match ws with
  | [] => total
  | w :: ws' => running_total (float_add total w) ws'
  end.

(** The sum of the stored weights of the edges, in their order and from
    0.0; no value when no weight is stored or the total is NaN. *)
Definition total_weight (es : list Row) : option float :=
  match weighted es with
  | [] => None
  | e :: es' =>
      let total := running_total float_zero (weight <$> e :: es') in
      if decide (total = S754_nan) then None else Some total
  end.

(** The row [Session.merge] of the instance [r] with the key [k] leaves
    under that key: [r] merged onto the row stored under [k], or [r] itself
    when no row is. *)
Definition merged (k : Z) (r : Row) (rows : list Row) : Row :=
  match filter (has_id k) rows with
  | x :: _ => merged_onto r x
  | [] => r
  end.



(** The attributes stored under the id [k], if any. *)
Definition stored_attributes (k : Z) (rows : list Row) : option string :=
  match filter (has_id k) rows with
  | x :: _ => attributes_json x
  | [] => None
  end.



(** A computation that raises from every session. *)
Definition raises {A} (m : M A) : Prop :=
  forall s, exists e s', m s = (Raise e, s').

(** No fault is scheduled and the session accepts statements. *)
Definition healthy (s : Session) : Prop :=
  active s ∧ Forall (fun b => b = false) (faults s).

(** Test data. *)
Definition one : float := float_of_dyadic 1 0.
Definition two : float := float_of_dyadic 2 0.
Definition two_and_a_half : float := float_of_dyadic 5 (-1).
Definition one_half : float := float_of_dyadic 1 (-1).
Definition four : float := float_of_dyadic 4 0.
Definition nan : float := S754_nan.

Definition row (k a b : Z) (w : float) : Row :=
  {| _id := Some k; v_from := a; v_to := b; weight := w;
     attributes_json := None |}.

(** The row with the given attributes payload. *)
Definition with_attributes (a : string) (r : Row) : Row :=
  {| _id := _id r; v_from := v_from r; v_to := v_to r; weight := weight r;
     attributes_json := Some a |}.

(** A session, outside any transaction, over the given primary table and
    with the given fault schedule. *)
Definition session_over (rows : list Row) (fs : list bool) : Session :=
  mkSession (mkTables rows []) (mkTables rows []) false fs.

(** The vertex identifiers of a table: every [v_from] and every [v_to]. *)
Definition vertices (rows : list Row) : gset Z :=
  list_to_set (v_from <$> rows) ∪ list_to_set (v_to <$> rows).

(** The vertex one turn of the loop of [nodes_related_to_group] contributes
    for the edge [e]. *)
Definition contributes (vs : list Z) (e : Row) (x : Z) : Prop :=
  ((v_from e ∉ vs) ∧ x = v_from e) ∨
  (v_from e ∈ vs ∧ (v_to e ∉ vs) ∧ x = v_to e).

(** A small graph: 1 -> 2, 2 -> 3, 3 -> 1 and a loop on 3. *)
Definition sample_rows : list Row :=
  [row 1 1 2 one; row 2 2 3 two; row 3 3 1 four; row 4 3 3 one_half].

Definition sample_session : Session := session_over sample_rows [].

(** * Properties *)

(** ** The monad *)

Section Monad.
Context {A B : Type}.

Lemma bind_raises_l (m : M A) (k : A -> M B) : raises m -> raises (bind m k).
Proof.
  intros Hm s. destruct (Hm s) as (e & s' & E).
  exists e, s'. unfold bind. now rewrite E.
Qed.

Lemma bind_raises_r (m : M A) (k : A -> M B) :
  (forall a, raises (k a)) -> raises (bind m k).
Proof.
  intros Hk s. unfold bind.
  destruct (m s) as [[a | e] s'] eqn:E.
  - apply Hk.
  - now exists e, s'.
Qed.

Lemma try_except_raises (m : M A) (h : exn -> M A) (v : A) :
  raises m -> (forall e s, fst (h e s) = Return v) ->
  forall s, fst (try_except m h s) = Return v.
Proof.
  intros Hm Hh s. destruct (Hm s) as (e & s' & E).
  unfold try_except. rewrite E. apply Hh.
Qed.

Lemma active_ready (s : Session) : active s -> status s = Ready.
Proof. unfold active, needs_rollback. now destruct (status s). Qed.

Lemma flush_active (s : Session) : active s -> session_flush s = (Return tt, s).
Proof. intros Ha. unfold session_flush. now rewrite active_ready. Qed.

Lemma send_active (m : M A) (s : Session) : active s -> send m s = m s.
Proof. intros Ha. unfold send. now rewrite active_ready. Qed.

Lemma guard_active (m : M A) (s : Session) : active s -> guard m s = m s.
Proof.
  intros Ha. unfold guard, bind. rewrite flush_active by exact Ha.
  now apply send_active.
Qed.

(** What a statement of a query answers when it does not go through. *)
Lemma guard_refused (m : M A) (s : Session) :
  needs_rollback s = true ->
  ∃ e s', guard m s = (Raise e, s') ∧ committed s' = committed s ∧
          needs_rollback s' = true.
Proof.
  unfold needs_rollback, guard, bind, session_flush, send.
  destruct (status s) as [| | [|]] eqn:E; intros H; try discriminate;
    cbn; rewrite ?E; cbn; rewrite ?E;
    (eexists _, _; split; [reflexivity | split; [reflexivity |]]);
    cbn; now rewrite ?E.
Qed.
End Monad.

Lemma session_query_active {A} (q : Tables -> A) (s : Session) :
  active s -> session_query q s = (Return (q (current s)), s).
Proof. intros H. unfold session_query. now rewrite guard_active. Qed.

Lemma session_query_returns {A} (q : Tables -> A) (s : Session) (a : A) :
  fst (session_query q s) = Return a -> active s ∧ a = q (current s).
Proof.
  unfold session_query, guard, bind, session_flush, send, active, needs_rollback.
  destruct (status s) as [| | [|]] eqn:E; cbn; rewrite ?E; cbn;
    try discriminate.
  intros [= <-]. now split.
Qed.

Lemma healthy_commit (s : Session) :
  healthy s ->
  session_commit s =
    (Return tt, mkSession (current s) (current s) false (tail (faults s))) ∧
  healthy (mkSession (current s) (current s) false (tail (faults s))).
Proof.
  intros [Ha Hf]. unfold session_commit. rewrite active_ready by done.
  destruct (faults s) as [| [|] fs] eqn:E; cbn.
  - split; [reflexivity |]. split; [reflexivity | constructor].
  - apply Forall_cons in Hf as [Hf _]. discriminate.
  - apply Forall_cons in Hf as [_ Hf]. split; [reflexivity |]. now split.
Qed.

Lemma failing_commit (s : Session) (fs : list bool) :
  active s -> faults s = true :: fs ->
  session_commit s =
    (Raise OperationalError, mkSession (committed s) (committed s) true fs).
Proof.
  intros Ha Hf. unfold session_commit. rewrite active_ready by done.
  now rewrite Hf.
Qed.


Lemma set_current_current (s : Session) : set_current (current s) s = s.
Proof. now destruct s. Qed.

Lemma set_current_twice (t t' : Tables) (s : Session) :
  set_current t' (set_current t s) = set_current t' s.
Proof. reflexivity. Qed.

Lemma healthy_set_current (t : Tables) (s : Session) :
  healthy s -> healthy (set_current t s).
Proof. intros [Ha Hf]. now split. Qed.

Lemma healthy_after_commit (t : Tables) (s : Session) :
  healthy s -> healthy (mkSession t t false (tail (faults s))).
Proof.
  intros [_ Hf]. split; [reflexivity |]. cbn.
  destruct (faults s); [constructor |]. now apply Forall_cons in Hf.
Qed.

(** [Session.merge] of an instance with a primary key on a working
    session. *)
Lemma session_merge_keyed (m : entity) (s : Session) :
  active s -> is_Some (_id (snd m)) ->
  session_merge m s =
    (Return tt,
     set_current (set_table (fst m) (merge_row (snd m) (table_of (fst m) (current s)))
                            (current s)) s).
Proof.
  intros Ha [k Hk]. unfold session_merge, bind.
  rewrite flush_active by exact Ha. rewrite Hk. now rewrite send_active.
Qed.

(** [Session.merge] of an instance without primary key on a working
    session: nothing is sent, the instance waits for the flush. *)
Lemma session_merge_keyless (m : entity) (s : Session) :
  active s -> _id (snd m) = None ->
  session_merge m s = (Return tt, add_pending s) ∧
  status (add_pending s) = Unflushable.
Proof.
  intros Ha Hk. unfold session_merge, bind.
  rewrite flush_active by exact Ha. rewrite Hk.
  split; [reflexivity |]. unfold add_pending. cbn. now rewrite active_ready.
Qed.

(** ** Chunks *)

Section Chunks.
Context {A : Type}.
Variable size : nat.

Lemma concat_chunks_acc (cur l : list A) :
  concat (chunks_acc size cur l) = cur ++ l.
Proof.
  revert cur. induction l as [| x l IH]; intros cur; cbn.
  - destruct cur; cbn; now rewrite ?app_nil_r.
  - destruct (decide (length (cur ++ [x]) = size)); cbn; rewrite IH.
    + now rewrite <- app_assoc.
    + now rewrite <- app_assoc.
Qed.

Lemma chunks_acc_bounded (cur l : list A) :
  (length cur < size)%nat ->
  Forall (fun c => (0 < length c <= size)%nat) (chunks_acc size cur l).
Proof.
  revert cur. induction l as [| x l IH]; intros cur Hc; cbn.
  - destruct cur as [| y cur]; [constructor |].
    constructor; [cbn in *; lia | constructor].
  - assert (Hlen : length (cur ++ [x]) = S (length cur))
      by (rewrite length_app; cbn; lia).
    destruct (decide (length (cur ++ [x]) = size)) as [E | E].
    + constructor; [lia |]. apply IH. cbn. lia.
    + apply IH. lia.
Qed.

(** The chunks are the input, cut into pieces. *)
Lemma concat_chunks (l : list A) : concat (chunks l size) = l.
Proof. apply concat_chunks_acc. Qed.

(** No chunk is empty and none is longer than the chunk size. *)
Lemma chunks_bounded (l : list A) :
  (0 < size)%nat ->
  Forall (fun c => (0 < length c <= size)%nat) (chunks l size).
Proof. intros H. now apply chunks_acc_bounded. Qed.
End Chunks.

(** ** Batch insert *)

Lemma merge_each (es : list edge_arg) (s : Session) :
  active s -> Forall with_key es ->
  for_each es (fun e => session_merge (_to_sql e EdgeSQL)) s =
    (Return tt,
     set_current (merge_entities ((fun e => _to_sql e EdgeSQL) <$> es)
                                 (current s)) s).
Proof.
  revert s. induction es as [| e es IH]; intros s Ha Hk; cbn.
  - unfold ret. now rewrite set_current_current.
  - apply Forall_cons in Hk as [He Hk].
    unfold bind at 1. rewrite session_merge_keyed by done.
    rewrite IH by done. now rewrite set_current_twice.
Qed.

(** A batch of edges with primary keys whose commit goes through: every
    edge is merged, the batch is committed as one transaction and its
    length is returned. *)
Lemma insert_edges_commit_ok (es : list edge_arg) (s : Session) :
  healthy s -> Forall with_key es ->
  insert_edges es s =
    (Return (Z.of_nat (length es)),
     mkSession (merge_entities ((fun e => _to_sql e EdgeSQL) <$> es) (current s))
               (merge_entities ((fun e => _to_sql e EdgeSQL) <$> es) (current s))
               false (tail (faults s))).
Proof.
  intros [Ha Hf] Hk. unfold insert_edges, bind at 1. rewrite merge_each by done.
  unfold try_except, bind.
  destruct (healthy_commit (set_current
              (merge_entities ((fun e => _to_sql e EdgeSQL) <$> es) (current s)) s))
    as [E _]; [now split |].
  now rewrite E.
Qed.


(** A batch of edges with primary keys whose commit fails: 0 is returned,
    the database keeps what it held, and the session is left waiting for
    the [rollback()] that [insert_edges] does not issue, so that counting
    the edges raises. *)
Lemma insert_edges_commit_fails (es : list edge_arg) (s : Session) (fs : list bool) :
  active s -> faults s = true :: fs -> Forall with_key es ->
  insert_edges es s =
    (Return 0, mkSession (committed s) (committed s) true fs) ∧
  fst (count_edges (exec (insert_edges es) s)) = Raise InvalidRequestError.
Proof.
  intros Ha Hf Hk.
  assert (E : insert_edges es s =
              (Return 0, mkSession (committed s) (committed s) true fs)).
  { unfold insert_edges, bind at 1. rewrite merge_each by done.
    unfold try_except, bind. now rewrite (failing_commit _ fs). }
  split; [exact E |]. unfold exec. now rewrite E.
Qed.

(** C3.  A batch whose commit fails returns 0 but is not rolled back by
    [insert_edges]: the session is left waiting for [rollback()], and
    [count_edges()], which returned 0 before the call, raises after it.
    [remove_node] calls [rollback()] in the same situation and leaves a
    session that still counts its edges. *)
Theorem insert_edges_failed_commit_not_rolled_back :
  let s0 := fresh_session [true] in
  let es := [Mapped (EdgeSQL, row 1 1 2 one)] in
  let s1 := exec (insert_edges es) s0 in
  let t0 := session_over [row 1 1 2 one] [true] in
  let t1 := exec (remove_node 1) t0 in
  fst (count_edges s0) = Return 0 ∧
  fst (insert_edges es s0) = Return 0 ∧
  needs_rollback s1 = true ∧
  fst (count_edges s1) = Raise InvalidRequestError ∧
  fst (remove_node 1 t0) = Return 0 ∧
  fst (count_edges t1) = Return 1.
Proof. vm_compute. repeat split; reflexivity. Qed.

(** ** Bulk load *)

Lemma load_name_unbound {A} (scope : list (string * A)) (name : string) :
  name ∉ scope.*1 -> forall s, load_name scope name s = (Raise (NameError name), s).
Proof.
  induction scope as [| [n v] scope IH]; intros Hn s; [reflexivity |].
  cbn in *. apply not_elem_of_cons in Hn as [Hn1 Hn2].
  destruct (decide (n = name)); [congruence | now apply IH].
Qed.

(** The merge step never gets to run its statement. *)
Lemma insert_table_raises (source_name : string) (s : Session) :
  insert_table source_name s = (Raise (NameError "step"), s).
Proof.
  unfold insert_table, bind. rewrite load_name_unbound; [reflexivity |].
  cbn. intros H. apply list_elem_of_singleton in H. discriminate.
Qed.

Lemma to_sql_of_converted (es : list edge_arg) :
  (fun e => _to_sql e EdgeSQL) <$>
    ((fun e => Mapped (_to_sql e e_type_default)) <$> es) =
  (fun e => _to_sql e EdgeSQL) <$> es.
Proof. rewrite <- list_fmap_compose. now apply list_fmap_ext. Qed.


Lemma merge_entities_app (ms ms' : list entity) (t : Tables) :
  merge_entities (ms ++ ms') t = merge_entities ms' (merge_entities ms t).
Proof. apply fold_left_app. Qed.

Lemma with_key_converted (e : edge_arg) :
  with_key (Mapped (_to_sql e e_type_default)) ↔ with_key e.
Proof. reflexivity. Qed.

Lemma Forall_chunks {A} (P : A -> Prop) (l : list A) (n : nat) :
  Forall P l -> Forall (Forall P) (chunks l n).
Proof.
  intros H. apply Forall_forall. intros c Hc. apply Forall_forall. intros x Hx.
  rewrite Forall_forall in H. apply H.
  rewrite <- (concat_chunks n l). apply list_elem_of_In, in_concat.
  exists c. split; now apply list_elem_of_In.
Qed.

(** With healthy storage the chunk stage merges every record of every
    chunk and commits chunk by chunk, provided every record carries its
    primary key. *)
Lemma stage_chunks_healthy (cs : list (list edge_arg)) (s : Session) :
  healthy s -> Forall (Forall with_key) cs ->
  ∃ s', stage_chunks cs s = (Return tt, s') ∧ healthy s' ∧
        current s' =
          merge_entities ((fun e => _to_sql e EdgeSQL) <$> concat cs) (current s).
Proof.
  revert s. induction cs as [| c cs IH]; intros s Hs Hk.
  - exists s. split; [reflexivity | split; [exact Hs | reflexivity]].
  - apply Forall_cons in Hk as [Hc Hk].
    unfold stage_chunks. cbn [for_each]. unfold bind at 1. unfold bind at 1.
    rewrite insert_edges_commit_ok; [| exact Hs |].
    2: { apply Forall_fmap. eapply Forall_impl; [exact Hc |].
         intros e He. now apply with_key_converted. }
    rewrite to_sql_of_converted. cbn [ret].
    set (T := merge_entities ((fun e => _to_sql e EdgeSQL) <$> c) (current s)).
    assert (Hs1 : healthy (mkSession T T false (tail (faults s))))
      by now apply healthy_after_commit.
    destruct (IH _ Hs1 Hk) as (s' & E & Hs' & Hc').
    exists s'. split; [exact E |]. split; [exact Hs' |].
    rewrite Hc'. cbn [current concat]. now rewrite fmap_app, merge_entities_app.
Qed.

(** With healthy storage [insert_dump] of records that carry their primary
    key amounts to merging every record of the dump into the table of the
    class [_to_sql] gives it and returning 0. *)
Lemma insert_dump_healthy (dump : list edge_arg) (s : Session) :
  healthy s -> Forall with_key dump ->
  ∃ s', insert_dump dump s = (Return 0, s') ∧ healthy s' ∧
        current s' = committed s' ∧
        committed s' =
          merge_entities ((fun e => _to_sql e EdgeSQL) <$> dump) (current s).
Proof.
  intros Hs Hk. pose proof Hs as [Ha _].
  unfold insert_dump, try_except, bind at 1.
  unfold count_edges at 1. rewrite session_query_active by exact Ha.
  unfold bind at 1.
  change (for_each (chunks dump __max_batch_size__) _)
    with (stage_chunks (chunks dump __max_batch_size__)).
  destruct (stage_chunks_healthy (chunks dump __max_batch_size__) s Hs)
    as (s1 & -> & Hs1 & Hc1); [now apply Forall_chunks |].
  rewrite concat_chunks in Hc1.
  destruct (healthy_commit s1 Hs1) as [E2 Hs2].
  unfold bind at 1. rewrite E2.
  unfold bind at 1. rewrite insert_table_raises.
  unfold bind, session_rollback, ret. cbn [committed faults].
  eexists. split; [reflexivity |]. split; [exact Hs2 |].
  split; [reflexivity |]. exact Hc1.
Qed.

Lemma insert_dump_returns_zero (dump : list edge_arg) (s : Session) :
  fst (insert_dump dump s) = Return 0.
Proof.
  unfold insert_dump. apply try_except_raises; [| reflexivity].
  do 3 (apply bind_raises_r; intros ?).
  apply bind_raises_l. intros s'. eexists _, _. apply insert_table_raises.
Qed.



(** ** Vertices *)

Lemma elem_of_select_distinct (column : Row -> Z) (rows : list Row) (v : Z) :
  Row1 v ∈ select_distinct column rows ↔ ∃ e, e ∈ rows ∧ column e = v.
Proof.
  unfold select_distinct. rewrite elem_of_remove_dups, list_elem_of_fmap.
  split.
  - intros (e & E & He). exists e. split; [done | congruence].
  - intros (e & He & E). exists e. split; [congruence | done].
Qed.

Lemma select_distinct_NoDup (column : Row -> Z) (rows : list Row) :
  NoDup (select_distinct column rows).
Proof. apply NoDup_remove_dups. Qed.

Lemma elem_of_vertices (rows : list Row) (v : Z) :
  v ∈ vertices rows ↔ ∃ e, e ∈ rows ∧ (v_from e = v ∨ v_to e = v).
Proof.
  unfold vertices.
  rewrite elem_of_union, !elem_of_list_to_set, !list_elem_of_fmap.
  split.
  - intros [(e & -> & He) | (e & -> & He)]; exists e; auto.
  - intros (e & He & [<- | <-]); [left | right]; exists e; auto.
Qed.

(** What [all_vertexes] returns is the image of the vertex set under the
    1-tuple constructor. *)
Lemma all_vertexes_rows (s : Session) :
  active s ->
  all_vertexes s = (Return (set_map Row1 (vertices (table_edges (current s)))), s).
Proof.
  intros Ha. unfold all_vertexes, bind.
  rewrite !session_query_active by done. unfold ret. f_equal. f_equal.
  apply set_eq. intros [v].
  rewrite elem_of_union, !elem_of_list_to_set, !elem_of_select_distinct.
  rewrite elem_of_map. split.
  - intros [(e & He & E) | (e & He & E)]; exists v;
      (split; [done |]); apply elem_of_vertices; exists e; auto.
  - intros (v' & E & Hv). injection E as <-.
    apply elem_of_vertices in Hv as (e & He & [E | E]);
      [left | right]; exists e; auto.
Qed.

Lemma count_nodes_vertices (s : Session) :
  active s ->
  count_nodes s = (Return (Z.of_nat (size (vertices (table_edges (current s))))), s).
Proof.
  intros Ha. unfold count_nodes, bind. rewrite all_vertexes_rows by done.
  unfold ret. do 3 f_equal. unfold set_map.
  rewrite size_list_to_set, length_fmap; [reflexivity |].
  apply NoDup_fmap_2; [| apply NoDup_elements].
  intros x y E. now injection E.
Qed.

(** C6.  [all_vertexes] returns the rows of its two one-column queries, not
    the identifiers in them: over the single edge (1, 2) it returns the set
    of the 1-tuples [(1,)] and [(2,)].  [count_nodes] is the number of
    distinct identifiers, 2. *)
Theorem all_vertexes_returns_rows :
  let s := session_over [row 1 1 2 one] [] in
  fst (all_vertexes s) = Return {[Row1 1; Row1 2]} ∧
  vertices (table_edges (current s)) = {[1; 2]} ∧
  fst (count_nodes s) = Return 2.
Proof. vm_compute. repeat split; reflexivity. Qed.

(** ** Frontier of a group *)

(** Membership and non-membership in a list given by its items. *)
Ltac in_list := solve [repeat constructor].
Ltac not_in_list :=
  let H := fresh in
  intros H;
  repeat (apply elem_of_cons in H as [H | H]; [discriminate H |]);
  now apply elem_of_nil in H.

Section Frontier.
Variable vs : list Z.

Lemma elem_of_related_step (acc : gset Z) (e : Row) (x : Z) :
  x ∈ related_step vs acc e ↔ x ∈ acc ∨ contributes vs e x.
Proof.
  unfold related_step, contributes.
  destruct (decide (v_from e ∉ vs)) as [Hf | Hf].
  - rewrite elem_of_union, elem_of_singleton. tauto.
  - destruct (decide (v_to e ∉ vs)) as [Ht | Ht].
    + rewrite elem_of_union, elem_of_singleton.
      apply dec_stable in Hf. tauto.
    + tauto.
Qed.

Lemma elem_of_related_fold (edges : list Row) (acc : gset Z) (x : Z) :
  x ∈ fold_left (related_step vs) edges acc ↔
  x ∈ acc ∨ ∃ e, e ∈ edges ∧ contributes vs e x.
Proof.
  revert acc. induction edges as [| e edges IH]; intros acc; cbn.
  - split; [auto |]. intros [H | (e & He & _)]; [done |].
    now apply elem_of_nil in He.
  - rewrite IH, elem_of_related_step. split.
    + intros [[H | H] | (e' & He' & H)]; [auto | |].
      * right. exists e. split; [left | done].
      * right. exists e'. split; [now right | done].
    + intros [H | (e' & He' & H)]; [auto |].
      apply elem_of_cons in He' as [-> | He']; [auto |].
      right. now exists e'.
Qed.

(** Among the selected edges, an edge contributes exactly its endpoint
    outside the group, when the other endpoint is inside. *)
Lemma contributes_selected (e : Row) (x : Z) :
  (v_from e ∈ vs ∨ v_to e ∈ vs) ∧ contributes vs e x ↔
  (x ∉ vs) ∧ ((v_from e = x ∧ v_to e ∈ vs) ∨ (v_to e = x ∧ v_from e ∈ vs)).
Proof.
  unfold contributes. split.
  - intros [Hsel [[Hf ->] | (Hf & Ht & ->)]]; split; try done.
    + left. split; [done |]. now destruct Hsel.
    + now right.
  - intros [Hx [[<- Ht] | [<- Hf]]]; split; auto.
Qed.
End Frontier.

(** C4.  [nodes_related_to_group(V)] returns exactly the vertices outside
    [V] that are an endpoint of a stored edge whose other endpoint is in
    [V]; over the edges (1,2), (2,3), (3,4) and with [V = {2, 3}] that set
    is [{1, 4}]. *)
Theorem nodes_related_to_group_frontier (s : Session) (vs : list Z) :
  active s ->
  ∃ R : gset Z,
    nodes_related_to_group vs s = (Return R, s) ∧
    (∀ x, x ∈ R ↔
          (x ∉ vs) ∧
          ∃ e, e ∈ table_edges (current s) ∧
               ((v_from e = x ∧ v_to e ∈ vs) ∨ (v_to e = x ∧ v_from e ∈ vs))) ∧
    ((∀ a b, (∃ e, e ∈ table_edges (current s) ∧ v_from e = a ∧ v_to e = b) ↔
             (a, b) ∈ [(1, 2); (2, 3); (3, 4)]) ->
     (∀ x, x ∈ vs ↔ x ∈ [2; 3]) ->
     R = {[1; 4]}).
Proof.
  intros Ha. eexists. split; [| split].
  - unfold nodes_related_to_group, bind.
    rewrite session_query_active by done. reflexivity.
  - intros x. rewrite elem_of_related_fold. split.
    + intros [H | (e & He & Hc)]; [now apply not_elem_of_empty in H |].
      apply list_elem_of_filter in He as [Hsel He].
      destruct (proj1 (contributes_selected vs e x) (conj Hsel Hc)) as [Hx H].
      split; [done |]. now exists e.
    + intros [Hx (e & He & H)]. right. exists e.
      destruct (proj2 (contributes_selected vs e x) (conj Hx H)) as [Hsel Hc].
      split; [| done]. apply list_elem_of_filter. now split.
  - intros Hedges Hvs. apply set_eq. intros x.
    rewrite elem_of_related_fold. split.
    + intros [H | (e & He & Hc)]; [now apply not_elem_of_empty in H |].
      apply list_elem_of_filter in He as [Hsel He].
      destruct (proj1 (contributes_selected vs e x) (conj Hsel Hc)) as [Hx H].
      assert (Hp : (v_from e, v_to e) ∈ [(1, 2); (2, 3); (3, 4)])
        by (apply Hedges; now exists e).
      rewrite Hvs in Hx. rewrite !Hvs in H.
      repeat (apply elem_of_cons in Hp as [[= Ef Et] | Hp];
              [rewrite Ef, Et in H |]);
        [| | | now apply elem_of_nil in Hp];
        destruct H as [[<- Hin] | [<- Hin]];
        try (exfalso; apply Hx; in_list);
        try (apply elem_of_union; rewrite !elem_of_singleton; lia);
        exfalso; revert Hin; not_in_list.
    + intros Hx. right.
      apply elem_of_union in Hx as [Hx | Hx]; apply elem_of_singleton in Hx;
        subst x.
      * destruct (proj2 (Hedges 1 2)) as (e & He & Ef & Et); [in_list |].
        exists e. split.
        -- apply list_elem_of_filter. split; [| done].
           right. rewrite Et. apply Hvs. in_list.
        -- left. rewrite Ef. split; [| done]. rewrite Hvs. not_in_list.
      * destruct (proj2 (Hedges 3 4)) as (e & He & Ef & Et); [in_list |].
        exists e. split.
        -- apply list_elem_of_filter. split; [| done].
           left. rewrite Ef. apply Hvs. in_list.
        -- right. rewrite Ef, Et. rewrite !Hvs.
           split; [in_list | split; [not_in_list | done]].
Qed.

Lemma nodes_related_to_group_frontier_witness :
  ∃ R : gset Z,
    nodes_related_to_group [2; 3]
      (session_over [row 1 1 2 one; row 2 2 3 one; row 3 3 4 one] []) =
    (Return R, session_over [row 1 1 2 one; row 2 2 3 one; row 3 3 4 one] []) ∧
    R = {[1; 4]}.
Proof.
  destruct (nodes_related_to_group_frontier
              (session_over [row 1 1 2 one; row 2 2 3 one; row 3 3 4 one] [])
              [2; 3] eq_refl) as (R & E & _ & H).
  exists R. split; [exact E |].
  apply H.
  - intros a b. split.
    + intros (e & He & <- & <-).
      repeat (apply elem_of_cons in He as [-> | He]; [in_list |]).
      now apply elem_of_nil in He.
    + intros Hp.
      repeat (apply elem_of_cons in Hp as [[= -> ->] | Hp];
              [eexists; split; [in_list | split; reflexivity] |]).
      now apply elem_of_nil in Hp.
  - reflexivity.
Defined.

(** ** Lookup by endpoints *)

Lemma filter_none {A} (P : A -> Prop) `{∀ x, Decision (P x)} (l : list A) :
  (∀ x, x ∈ l -> ¬ P x) -> filter P l = [].
Proof.
  intros Hn. destruct (filter P l) as [| x l'] eqn:E; [reflexivity |].
  assert (Hx : x ∈ filter P l) by (rewrite E; left).
  apply list_elem_of_filter in Hx as [Hp Hx]. now apply Hn in Hx.
Qed.

Lemma filter_all {A} (P : A -> Prop) `{∀ x, Decision (P x)} (l : list A) :
  (∀ x, x ∈ l -> P x) -> filter P l = l.
Proof.
  induction l as [| x l IH]; intros Hl; [reflexivity |].
  rewrite filter_cons_True by (apply Hl; left).
  rewrite IH; [reflexivity |]. intros y Hy. apply Hl. now right.
Qed.

Lemma filter_iff_on {A} (P Q : A -> Prop)
    `{∀ x, Decision (P x), ∀ x, Decision (Q x)} (l : list A) :
  (∀ x, x ∈ l -> (P x ↔ Q x)) -> filter P l = filter Q l.
Proof.
  induction l as [| x l IH]; intros Hl; [reflexivity |].
  assert (Hx : P x ↔ Q x) by (apply Hl; left).
  rewrite !filter_cons.
  rewrite IH by (intros y Hy; apply Hl; now right).
  destruct (decide (P x)), (decide (Q x)); tauto.
Qed.

Section SelectOr.
Context (P Q : Row -> Prop) `{!∀ r, Decision (P r), !∀ r, Decision (Q r)}.

Lemma elem_of_select_or (rows : list Row) (e : Row) :
  e ∈ select_or P Q rows ↔ e ∈ rows ∧ (P e ∨ Q e).
Proof.
  unfold select_or. rewrite elem_of_app, !list_elem_of_filter.
  destruct (decide (P e)); tauto.
Qed.

Lemma select_or_none (rows : list Row) :
  (∀ e, e ∈ rows -> ¬ (P e ∨ Q e)) -> select_or P Q rows = [].
Proof.
  intros Hn. unfold select_or. rewrite !filter_none; [reflexivity | |].
  - intros e He [Hq _]. apply (Hn e He). now right.
  - intros e He Hp. apply (Hn e He). now left.
Qed.

(** The listing of [P OR Q] holds the rows a scan of the table for either
    alternative finds, in another order. *)
Lemma select_or_Permutation (rows : list Row) :
  select_or P Q rows ≡ₚ filter (fun e => P e ∨ Q e) rows.
Proof.
  unfold select_or. induction rows as [| x rows IH]; [reflexivity |].
  destruct (decide (P x)) as [Hp | Hp].
  - rewrite (filter_cons_True P) by done.
    rewrite (filter_cons_False (fun r => Q r ∧ ¬ P r)) by tauto.
    rewrite (filter_cons_True (fun e => P e ∨ Q e)) by tauto.
    cbn. now rewrite IH.
  - rewrite (filter_cons_False P) by done.
    destruct (decide (Q x)) as [Hq | Hq].
    + rewrite (filter_cons_True (fun r => Q r ∧ ¬ P r)) by tauto.
      rewrite (filter_cons_True (fun e => P e ∨ Q e)) by tauto.
      rewrite <- Permutation_middle. now rewrite IH.
    + rewrite (filter_cons_False (fun r => Q r ∧ ¬ P r)) by tauto.
      rewrite (filter_cons_False (fun e => P e ∨ Q e)) by tauto.
      exact IH.
Qed.

(** With a first alternative that matches no row the listing is the scan
    for the second. *)
Lemma select_or_right (rows : list Row) :
  (∀ e, e ∈ rows -> ¬ P e) -> select_or P Q rows = filter Q rows.
Proof.
  intros Hn. unfold select_or. rewrite (filter_none P) by exact Hn.
  cbn. apply filter_iff_on. intros e He. specialize (Hn e He). tauto.
Qed.

(** With a second alternative that matches no row the listing is the scan
    for the first. *)
Lemma select_or_left (rows : list Row) :
  (∀ e, e ∈ rows -> ¬ Q e) -> select_or P Q rows = filter P rows.
Proof.
  intros Hn. unfold select_or.
  rewrite (filter_none (fun r => Q r ∧ ¬ P r)), app_nil_r; [reflexivity |].
  intros e He [Hq _]. now apply (Hn e He).
Qed.
End SelectOr.

(** C8.  [find_edge(a, b)] answers with an edge from [a] to [b] and with
    nothing exactly when there is none; [find_edge_or_inv(a, b)] returns
    the edges from [a] to [b] and from [b] to [a].  Over a store that holds
    only an edge from 1 to 2, [find_edge(2, 1)] finds nothing and
    [find_edge_or_inv(1, 2)] returns that edge. *)
Theorem find_edge_directed (s : Session) (a b : Z) :
  active s ->
  (∃ r, find_edge a b s = (Return r, s) ∧
        (∀ e, r = Some e -> e ∈ table_edges (current s) ∧ v_from e = a ∧ v_to e = b) ∧
        (r = None ↔ ∀ e, e ∈ table_edges (current s) -> ¬ (v_from e = a ∧ v_to e = b))) ∧
  (∃ l, find_edge_or_inv a b s = (Return l, s) ∧
        ∀ e, e ∈ l ↔ e ∈ table_edges (current s) ∧
                     ((v_from e = a ∧ v_to e = b) ∨ (v_from e = b ∧ v_to e = a))) ∧
  (∀ e, table_edges (current s) = [e] -> v_from e = 1 -> v_to e = 2 ->
        find_edge 2 1 s = (Return None, s) ∧
        find_edge_or_inv 1 2 s = (Return [e], s)).
Proof.
  intros Ha. split; [| split].
  - eexists. split; [unfold find_edge; now rewrite session_query_active |].
    split.
    + intros e He. apply head_Some_elem_of, list_elem_of_filter in He. tauto.
    + rewrite head_None. split.
      * intros E e He Hp.
        now apply (filter_nil_not_elem_of _ _ e E Hp).
      * apply filter_none.
  - eexists. split; [unfold find_edge_or_inv; now rewrite session_query_active |].
    intros e. apply elem_of_select_or.
  - intros e E Ef Et. unfold find_edge, find_edge_or_inv.
    rewrite !session_query_active by done. rewrite E. split.
    + rewrite filter_cons_False; [reflexivity |]. rewrite Ef. intros [? _]. lia.
    + unfold select_or. rewrite filter_cons_True by auto.
      rewrite filter_cons_False; [reflexivity |]. intros [_ Hn]. now apply Hn.
Qed.

Lemma find_edge_directed_witness :
  find_edge 2 1 (session_over [row 1 1 2 one] []) =
    (Return None, session_over [row 1 1 2 one] []) ∧
  find_edge_or_inv 1 2 (session_over [row 1 1 2 one] []) =
    (Return [row 1 1 2 one], session_over [row 1 1 2 one] []).
Proof.
  apply (find_edge_directed (session_over [row 1 1 2 one] []) 2 1 eq_refl);
    reflexivity.
Defined.

(** ** Weighted degree *)

Lemma weights_of_weighted (rows : list Row) :
  filter (fun w => w ≠ S754_nan) (weight <$> rows) = weight <$> weighted rows.
Proof.
  unfold weighted. induction rows as [| x rows IH]; [reflexivity |].
  rewrite fmap_cons. destruct (decide (weight x = S754_nan)) as [E | E].
  - rewrite !filter_cons_False by (intros H; now apply H). exact IH.
  - rewrite !filter_cons_True by exact E. rewrite fmap_cons. f_equal. exact IH.
Qed.

Lemma fold_left_running_total (ws : list float) (total : float) :
  fold_left float_add ws total = running_total total ws.
Proof. revert total. induction ws as [| w ws IH]; intros total; cbn; auto. Qed.

Lemma sql_sum_total_weight (rows : list Row) :
  sql_sum (weight <$> weighted rows) = total_weight rows.
Proof.
  unfold sql_sum, total_weight. destruct (weighted rows) as [| e es]; [reflexivity |].
  rewrite fmap_cons. now rewrite fold_left_running_total.
Qed.

(** The row of the aggregate query: the number of the selected edges that
    have a weight, and the total of those weights. *)
Lemma count_and_sum_weighted (rows : list Row) :
  count_and_sum rows = (Z.of_nat (length (weighted rows)), total_weight rows).
Proof.
  pose proof (weights_of_weighted rows) as E.
  rewrite <- sql_sum_total_weight, <- (length_fmap weight (weighted rows)).
  unfold count_and_sum. cbv zeta. f_equal; [do 2 f_equal | f_equal]; exact E.
Qed.

Lemma weighted_all (rows : list Row) :
  Forall (fun e => weight e ≠ S754_nan) rows -> weighted rows = rows.
Proof.
  intros H. unfold weighted. induction H as [| x rows Hx H IH]; [reflexivity |].
  rewrite filter_cons_True by exact Hx. now rewrite IH.
Qed.

Lemma sql_sum_example (ws : list float) :
  ws ≡ₚ [one; two_and_a_half; one_half] -> sql_sum ws = Some four.
Proof.
  intros Hp. symmetry in Hp. apply permutations_Permutation in Hp.
  vm_compute in Hp.
  repeat (apply elem_of_cons in Hp as [-> | Hp]; [vm_compute; reflexivity |]).
  now apply elem_of_nil in Hp.
Qed.

Lemma total_weight_example (es : list Row) :
  weight <$> es ≡ₚ [one; two_and_a_half; one_half] ->
  weighted es = es ∧ total_weight es = Some four.
Proof.
  intros Hp.
  assert (Hw : weighted es = es).
  { apply weighted_all. apply Forall_forall. intros e He.
    assert (Hin : weight e ∈ [one; two_and_a_half; one_half]).
    { rewrite <- Hp. apply list_elem_of_fmap. now exists e. }
    repeat (apply elem_of_cons in Hin as [-> | Hin]; [discriminate |]).
    now apply elem_of_nil in Hin. }
  split; [exact Hw |].
  rewrite <- sql_sum_total_weight, Hw. now apply sql_sum_example.
Qed.

(** An edge whose weight is not stored is listed and not counted: over the
    two edges 7 -> 2 of weight 1.0 and 7 -> 3 without weight, [edges_from(7)]
    lists both and [count_following(7)] returns (1, 1.0), so the count is not
    the number of matching edges. *)
Lemma count_following_skips_missing_weight :
  edges_from 7 (session_over [row 1 7 2 one; row 2 7 3 nan] []) =
    (Return [row 1 7 2 one; row 2 7 3 nan],
     session_over [row 1 7 2 one; row 2 7 3 nan] []) ∧
  count_following 7 (session_over [row 1 7 2 one; row 2 7 3 nan] []) =
    (Return (1, Some one), session_over [row 1 7 2 one; row 2 7 3 nan] []) ∧
  ¬ ∃ es w,
      edges_from 7 (session_over [row 1 7 2 one; row 2 7 3 nan] []) =
        (Return es, session_over [row 1 7 2 one; row 2 7 3 nan] []) ∧
      count_following 7 (session_over [row 1 7 2 one; row 2 7 3 nan] []) =
        (Return (Z.of_nat (length es), w),
         session_over [row 1 7 2 one; row 2 7 3 nan] []).
Proof.
  split; [reflexivity |]. split; [reflexivity |].
  intros (es & w & E1 & E2).
  vm_compute in E1. injection E1 as <-. vm_compute in E2. discriminate E2.
Qed.

(** C9.  Each of [count_related], [count_followers] and [count_following]
    is one query that returns the number of the edges of the matching
    listing ([edges_related], [edges_to], [edges_from]) whose weight is
    stored, together with the sum of the stored weights, which has no value
    when there is none or when the total is not a number; outgoing weights
    1.0, 2.5 and 0.5, in any order, make [count_following] return
    (3, 4.0). *)
Theorem count_and_sum_of_weighted (s : Session) (v : Z) :
  active s ->
  (∃ es, edges_related v s = (Return es, s) ∧
         count_related v s =
           (Return (Z.of_nat (length (weighted es)), total_weight es), s)) ∧
  (∃ es, edges_to v s = (Return es, s) ∧
         count_followers v s =
           (Return (Z.of_nat (length (weighted es)), total_weight es), s)) ∧
  (∃ es, edges_from v s = (Return es, s) ∧
         count_following v s =
           (Return (Z.of_nat (length (weighted es)), total_weight es), s)) ∧
  (∀ es, edges_from v s = (Return es, s) ->
         weight <$> es ≡ₚ [one; two_and_a_half; one_half] ->
         count_following v s = (Return (3, Some four), s)).
Proof.
  intros Ha.
  unfold edges_related, edges_to, edges_from,
    count_related, count_followers, count_following.
  rewrite !session_query_active by done.
  rewrite !count_and_sum_weighted.
  repeat split; try (eexists; split; reflexivity).
  intros es [= <-] Hp.
  destruct (total_weight_example _ Hp) as [-> ->].
  apply Permutation_length in Hp. rewrite length_fmap in Hp. now rewrite Hp.
Qed.

Lemma count_and_sum_of_weighted_witness :
  count_following 7
    (session_over [row 1 7 2 one; row 2 7 3 two_and_a_half; row 3 7 4 one_half;
                   row 4 2 7 two] []) =
  (Return (3, Some four),
   session_over [row 1 7 2 one; row 2 7 3 two_and_a_half; row 3 7 4 one_half;
                 row 4 2 7 two] []).
Proof.
  eapply (count_and_sum_of_weighted
            (session_over [row 1 7 2 one; row 2 7 3 two_and_a_half;
                           row 3 7 4 one_half; row 4 2 7 two] []) 7 eq_refl);
    reflexivity.
Defined.

(** C10.  Over no matching edge the aggregate row is (0, no value): the
    count is 0 and the sum is absent, not 0.0. *)
Theorem count_without_match (s : Session) (v : Z) :
  active s ->
  ((∀ e, e ∈ table_edges (current s) -> v_to e ≠ v) ->
   count_followers v s = (Return (0, None), s)) ∧
  ((∀ e, e ∈ table_edges (current s) -> v_from e ≠ v) ->
   count_following v s = (Return (0, None), s)) ∧
  ((∀ e, e ∈ table_edges (current s) -> v_from e ≠ v ∧ v_to e ≠ v) ->
   count_related v s = (Return (0, None), s)).
Proof.
  intros Ha.
  unfold count_related, count_followers, count_following.
  rewrite !session_query_active by done.
  repeat split; intros Hn.
  - rewrite filter_none; [reflexivity | exact Hn].
  - rewrite filter_none; [reflexivity | exact Hn].
  - rewrite select_or_none; [reflexivity |].
    intros e He [E | E]; destruct (Hn e He); congruence.
Qed.

Lemma count_without_match_witness :
  count_followers 9 (session_over [row 1 1 2 one] []) =
    (Return (0, None), session_over [row 1 1 2 one] []) ∧
  count_following 9 (session_over [row 1 1 2 one] []) =
    (Return (0, None), session_over [row 1 1 2 one] []) ∧
  count_related 9 (session_over [row 1 1 2 one] []) =
    (Return (0, None), session_over [row 1 1 2 one] []).
Proof.
  destruct (count_without_match (session_over [row 1 1 2 one] []) 9 eq_refl)
    as (H1 & H2 & H3).
  split; [apply H1 | split; [apply H2 | apply H3]];
    intros e He; apply list_elem_of_singleton in He; subst e; cbn;
    try split; discriminate.
Defined.

(** ** Upsert *)

Lemma elem_of_ids (rows : list Row) (i : Z) :
  i ∈ ids rows ↔ ∃ x, x ∈ rows ∧ has_id i x.
Proof. unfold ids, has_id. apply list_elem_of_omap. Qed.

Lemma ids_cons (x : Row) (rows : list Row) :
  ids (x :: rows) = match _id x with
                    | Some i => i :: ids rows
                    | None => ids rows
                    end.
Proof. reflexivity. Qed.

Lemma filter_absent_id (k : Z) (rows : list Row) :
  k ∉ ids rows -> filter (has_id k) rows = [].
Proof.
  intros Hk. apply filter_none. intros x Hx Hid.
  apply Hk, elem_of_ids. now exists x.
Qed.

Lemma merged_onto_again (r x : Row) :
  merged_onto r (merged_onto r x) = merged_onto r x.
Proof. unfold merged_onto. cbn. now destruct (attributes_json r). Qed.

Lemma merged_onto_self (r : Row) : merged_onto r r = r.
Proof. now destruct r as [i a b w [p |]]. Qed.

Lemma update_row_ids (k : Z) (r : Row) (rows : list Row) :
  ids (update_row k r rows) = ids rows.
Proof.
  induction rows as [| x rows IH]; [reflexivity |]. cbn [update_row].
  destruct (decide (has_id k x)) as [Hx | Hx].
  - now rewrite !ids_cons.
  - now rewrite !ids_cons, IH.
Qed.

Lemma update_row_length (k : Z) (r : Row) (rows : list Row) :
  length (update_row k r rows) = length rows.
Proof.
  induction rows as [| x rows IH]; [reflexivity |]. cbn [update_row].
  destruct (decide (has_id k x)); cbn; congruence.
Qed.


Section MergeRow.
Variables (k : Z) (r : Row).
Hypothesis r_key : _id r = Some k.

Lemma merged_absent (rows : list Row) : k ∉ ids rows -> merged k r rows = r.
Proof. intros Hk. unfold merged. now rewrite filter_absent_id. Qed.

Lemma merged_id (rows : list Row) : has_id k (merged k r rows).
Proof.
  unfold merged. destruct (filter (has_id k) rows) as [| x l] eqn:E; [exact r_key |].
  assert (Hx : x ∈ filter (has_id k) rows) by (rewrite E; left).
  now apply list_elem_of_filter in Hx as [Hx _].
Qed.

(** The columns of the merged row: the endpoints and the weight are those
    of the instance, and so are the attributes when the instance has them
    set; attributes the instance leaves unset stay as stored. *)
Lemma merged_columns (rows : list Row) :
  v_from (merged k r rows) = v_from r ∧
  v_to (merged k r rows) = v_to r ∧
  weight (merged k r rows) = weight r ∧
  attributes_json (merged k r rows) =
    match attributes_json r with
    | Some a => Some a
    | None => stored_attributes k rows
    end.
Proof.
  unfold merged, stored_attributes.
  destruct (filter (has_id k) rows) as [| x l]; cbn; [| tauto].
  repeat split. now destruct (attributes_json r).
Qed.

Lemma update_row_keyed (rows : list Row) :
  NoDup (ids rows) -> k ∈ ids rows ->
  filter (has_id k) (update_row k r rows) = [merged k r rows].
Proof.
  unfold merged. induction rows as [| x rows IH]; intros Hnd Hk.
  - now apply elem_of_nil in Hk.
  - cbn [update_row]. rewrite ids_cons in Hnd, Hk.
    destruct (decide (has_id k x)) as [Hx | Hx].
    + rewrite Hx in Hnd. apply NoDup_cons in Hnd as [Hnotin _].
      rewrite !filter_cons_True by exact Hx.
      now rewrite filter_absent_id.
    + rewrite !filter_cons_False by exact Hx.
      destruct (_id x) as [i |] eqn:Ei.
      * apply NoDup_cons in Hnd as [_ Hnd].
        apply elem_of_cons in Hk as [-> | Hk]; [now destruct Hx | auto].
      * auto.
Qed.

Lemma update_row_others (rows : list Row) :
  filter (fun x => ¬ has_id k x) (update_row k r rows) =
  filter (fun x => ¬ has_id k x) rows.
Proof.
  induction rows as [| x rows IH]; [reflexivity |]. cbn [update_row].
  destruct (decide (has_id k x)) as [Hx | Hx].
  - rewrite !filter_cons_False; [reflexivity | |]; intros Hn; now apply Hn.
  - rewrite !filter_cons_True by exact Hx. now rewrite IH.
Qed.

Lemma update_row_again (rows : list Row) :
  update_row k r (update_row k r rows) = update_row k r rows.
Proof.
  induction rows as [| x rows IH]; [reflexivity |]. cbn [update_row].
  destruct (decide (has_id k x)) as [Hx | Hx]; cbn [update_row].
  - rewrite decide_True by exact Hx. now rewrite merged_onto_again.
  - rewrite decide_False by exact Hx. now rewrite IH.
Qed.

Lemma update_row_appended (rows : list Row) :
  k ∉ ids rows -> update_row k r (rows ++ [r]) = rows ++ [r].
Proof.
  induction rows as [| x rows IH]; intros Hk; cbn.
  - rewrite decide_True by exact r_key. now rewrite merged_onto_self.
  - rewrite ids_cons in Hk. destruct (decide (has_id k x)) as [Hx | Hx].
    + rewrite Hx in Hk. exfalso. apply Hk. left.
    + rewrite IH; [reflexivity |]. destruct (_id x); [| done].
      intros Hin. apply Hk. now right.
Qed.

Lemma ids_appended (rows : list Row) : ids (rows ++ [r]) = ids rows ++ [k].
Proof. unfold ids. rewrite omap_app. cbn. now rewrite r_key. Qed.

Lemma merge_row_has_key (rows : list Row) : k ∈ ids (merge_row r rows).
Proof.
  unfold merge_row. rewrite r_key.
  destruct (decide (k ∈ ids rows)).
  - now rewrite update_row_ids.
  - rewrite ids_appended, elem_of_app. right. left.
Qed.

Lemma merge_row_NoDup (rows : list Row) :
  NoDup (ids rows) -> NoDup (ids (merge_row r rows)).
Proof.
  intros Hnd. unfold merge_row. rewrite r_key.
  destruct (decide (k ∈ ids rows)) as [Hk | Hk].
  - now rewrite update_row_ids.
  - rewrite ids_appended. apply NoDup_app. split; [done |]. split.
    + intros i Hi Hi'. apply list_elem_of_singleton in Hi'. now subst i.
    + apply NoDup_singleton.
Qed.

(** After the merge exactly one row carries the key: the merged one. *)
Lemma merge_row_keyed (rows : list Row) :
  NoDup (ids rows) -> filter (has_id k) (merge_row r rows) = [merged k r rows].
Proof.
  intros Hnd. unfold merge_row. rewrite r_key.
  destruct (decide (k ∈ ids rows)) as [Hk | Hk].
  - now apply update_row_keyed.
  - rewrite merged_absent by exact Hk.
    rewrite filter_app, filter_absent_id by done.
    now rewrite filter_cons_True by exact r_key.
Qed.

(** The rows under other keys are left as they were. *)
Lemma merge_row_others (rows : list Row) :
  filter (fun x => ¬ has_id k x) (merge_row r rows) =
  filter (fun x => ¬ has_id k x) rows.
Proof.
  unfold merge_row. rewrite r_key.
  destruct (decide (k ∈ ids rows)) as [Hk | Hk].
  - apply update_row_others.
  - rewrite filter_app, filter_cons_False, filter_nil, app_nil_r; [done |].
    intros Hn. now apply Hn.
Qed.


(** A present key is updated in place, an absent one adds a row. *)
Lemma merge_row_length (rows : list Row) :
  length (merge_row r rows) =
  if decide (k ∈ ids rows) then length rows else S (length rows).
Proof.
  unfold merge_row. rewrite r_key.
  destruct (decide (k ∈ ids rows)) as [Hk | Hk].
  - apply update_row_length.
  - rewrite length_app. cbn. lia.
Qed.

Lemma merge_row_again (rows : list Row) :
  merge_row r (merge_row r rows) = merge_row r rows.
Proof.
  unfold merge_row at 1. rewrite r_key.
  rewrite decide_True by apply merge_row_has_key.
  unfold merge_row. rewrite r_key.
  destruct (decide (k ∈ ids rows)) as [Hk | Hk].
  - apply update_row_again.
  - now apply update_row_appended.
Qed.
End MergeRow.

Lemma merge_row_NoDup_any (r : Row) (rows : list Row) :
  NoDup (ids rows) -> NoDup (ids (merge_row r rows)).
Proof.
  destruct (_id r) as [k |] eqn:E.
  - now apply (merge_row_NoDup k).
  - unfold merge_row. now rewrite E.
Qed.



(** ** Insertion *)

(** [insert_edge] of an argument that reaches the session with a primary
    key, while the storage is healthy. *)
Lemma insert_edge_healthy (e : edge_arg) (s : Session) :
  healthy s -> with_key e ->
  insert_edge e s =
    (Return tt,
     mkSession (merge_entities [_to_sql e EdgeSQL] (current s))
               (merge_entities [_to_sql e EdgeSQL] (current s))
               false (tail (faults s))).
Proof.
  intros Hs Hk. pose proof Hs as [Ha _].
  unfold insert_edge, bind. rewrite session_merge_keyed by done.
  lazymatch goal with
  | |- context [session_commit ?x] =>
      destruct (healthy_commit x) as [Ec _];
        [now apply healthy_set_current | rewrite Ec]
  end.
  reflexivity.
Qed.

(** [insert_edge] of an argument that reaches the session without primary
    key: the store refuses the row when the commit flushes it, the error
    reaches the caller, nothing is stored and the session is left waiting
    for a rollback. *)
Lemma insert_edge_keyless (e : edge_arg) (s : Session) :
  healthy s -> ¬ with_key e ->
  insert_edge e s =
    (Raise IntegrityError,
     mkSession (committed s) (committed s) true (tail (faults s))).
Proof.
  intros [Ha Hf] Hk.
  assert (E : _id (snd (_to_sql e EdgeSQL)) = None).
  { destruct (_id (snd (_to_sql e EdgeSQL))) eqn:E; [| reflexivity].
    exfalso. apply Hk. unfold with_key, converted. now rewrite E. }
  destruct (session_merge_keyless (_to_sql e EdgeSQL) s Ha E) as [Em Hst].
  unfold insert_edge, bind. rewrite Em. unfold session_commit. rewrite Hst.
  cbn [faults add_pending]. destruct (faults s) as [| [|] fs]; try reflexivity.
  apply Forall_cons in Hf as [Hf _]. discriminate.
Qed.



Lemma plain_keyless (e : Edge) : ¬ with_key (Plain e).
Proof. intros [k Hk]. discriminate Hk. Qed.

(** What [insert_edge] does with a mapped [EdgeSQL] instance that has its
    primary key, while the storage is healthy. *)
Lemma insert_edge_mapped (s : Session) (r : Row) :
  healthy s -> is_Some (_id r) ->
  insert_edge (Mapped (EdgeSQL, r)) s =
    (Return tt,
     mkSession (mkTables (merge_row r (table_edges (current s)))
                         (new_edges (current s)))
               (mkTables (merge_row r (table_edges (current s)))
                         (new_edges (current s)))
               false (tail (faults s))) ∧
  healthy (mkSession (mkTables (merge_row r (table_edges (current s)))
                               (new_edges (current s)))
                     (mkTables (merge_row r (table_edges (current s)))
                               (new_edges (current s)))
                     false (tail (faults s))).
Proof.
  intros Hs Hk. split; [| now apply healthy_after_commit].
  now rewrite insert_edge_healthy.
Qed.





(** ** Attributes *)






(** ** Upsert by id *)

(** [insert_edge] under a stored id does not replace the stored edge: over
    the edge 1 -> 2 of weight 1.0 stored under the id 1 with the attributes
    [old], inserting the instance with the id 1, the weight 2.0 and no
    attributes leaves the edge of weight 2.0 with the attributes [old],
    which is not the inserted edge.  A record that is not a mapped instance
    is not upserted either: with the id 7 in the record, [insert_edge]
    raises, a second call after the rollback raises again, and no edge is
    stored. *)
Lemma insert_edge_not_replacing :
  stored_after (insert_edge (Mapped (EdgeSQL, row 1 1 2 two)))
               (session_over [with_attributes "old" (row 1 1 2 one)] []) =
    [with_attributes "old" (row 1 1 2 two)] ∧
  stored_after (insert_edge (Mapped (EdgeSQL, row 1 1 2 two)))
               (session_over [with_attributes "old" (row 1 1 2 one)] []) ≠
    [row 1 1 2 two] ∧
  fst (insert_edge (Plain (mkEdge (Some 7) 1 2 one None)) (fresh_session [])) =
    Raise IntegrityError ∧
  fst (insert_edge (Plain (mkEdge (Some 7) 1 2 two None))
         (exec session_rollback
            (exec (insert_edge (Plain (mkEdge (Some 7) 1 2 one None)))
                  (fresh_session [])))) =
    Raise IntegrityError ∧
  stored_after (insert_edge (Plain (mkEdge (Some 7) 1 2 two None)))
    (exec session_rollback
       (exec (insert_edge (Plain (mkEdge (Some 7) 1 2 one None)))
             (fresh_session []))) = [].
Proof.
  split; [reflexivity |]. split; [| repeat split; reflexivity].
  vm_compute. discriminate.
Qed.

(** C5.  [insert_edge] of a mapped edge instance that carries the id [k] is
    an upsert on [k]: afterwards exactly one stored edge has that id; it has
    the endpoints and the weight of the instance, and its attributes when
    the instance has them set, attributes the instance leaves unset staying
    as they were stored; every other edge is as before, so a present id adds
    no row; a second insert under the same id leaves one edge, with the
    later endpoints and weight; and inserting the same edge twice is the
    same as once. *)
Theorem insert_edge_merges_by_id (s : Session) (r r' : Row) (k : Z) :
  healthy s -> NoDup (ids (table_edges (current s))) ->
  _id r = Some k -> _id r' = Some k ->
  fst (insert_edge (Mapped (EdgeSQL, r)) s) = Return tt ∧
  (∃ x, filter (has_id k) (stored_after (insert_edge (Mapped (EdgeSQL, r))) s) = [x] ∧
        v_from x = v_from r ∧ v_to x = v_to r ∧ weight x = weight r ∧
        attributes_json x =
          match attributes_json r with
          | Some a => Some a
          | None => stored_attributes k (table_edges (current s))
          end) ∧
  filter (fun x => ¬ has_id k x)
         (stored_after (insert_edge (Mapped (EdgeSQL, r))) s) =
    filter (fun x => ¬ has_id k x) (table_edges (current s)) ∧
  length (stored_after (insert_edge (Mapped (EdgeSQL, r))) s) =
    (if decide (k ∈ ids (table_edges (current s)))
     then length (table_edges (current s))
     else S (length (table_edges (current s)))) ∧
  (∃ x, filter (has_id k)
               (stored_after (insert_edge (Mapped (EdgeSQL, r)) ;;
                              insert_edge (Mapped (EdgeSQL, r'))) s) = [x] ∧
        v_from x = v_from r' ∧ v_to x = v_to r' ∧ weight x = weight r') ∧
  length (stored_after (insert_edge (Mapped (EdgeSQL, r)) ;;
                        insert_edge (Mapped (EdgeSQL, r'))) s) =
    length (stored_after (insert_edge (Mapped (EdgeSQL, r))) s) ∧
  stored_after (insert_edge (Mapped (EdgeSQL, r)) ;;
                insert_edge (Mapped (EdgeSQL, r))) s =
    stored_after (insert_edge (Mapped (EdgeSQL, r))) s.
Proof.
  intros Hs Hnd Hr Hr'.
  destruct (insert_edge_mapped s r Hs) as [E1 Hs1]; [now rewrite Hr |].
  assert (Hseq : ∀ x, is_Some (_id x) ->
                      stored_after (insert_edge (Mapped (EdgeSQL, r)) ;;
                                    insert_edge (Mapped (EdgeSQL, x))) s =
                      merge_row x (merge_row r (table_edges (current s)))).
  { intros x Hx. unfold stored_after, exec, bind. rewrite E1.
    destruct (insert_edge_mapped _ x Hs1 Hx) as [E2 _]. now rewrite E2. }
  rewrite !Hseq by (rewrite ?Hr, ?Hr'; eauto).
  unfold stored_after, exec. rewrite E1.
  unfold mkSession. cbn [fst snd committed table_edges].
  split; [reflexivity |]. split; [| split; [| split; [| split; [| split]]]].
  - exists (merged k r (table_edges (current s))).
    split; [now apply merge_row_keyed |]. apply (merged_columns k r).
  - now apply merge_row_others.
  - now apply merge_row_length.
  - exists (merged k r' (merge_row r (table_edges (current s)))). split.
    + apply (merge_row_keyed k r' Hr'). now apply (merge_row_NoDup k).
    + destruct (merged_columns k r' (merge_row r (table_edges (current s))))
        as (? & ? & ? & _).
      tauto.
  - rewrite (merge_row_length k r' Hr').
    now rewrite decide_True by now apply merge_row_has_key.
  - now apply (merge_row_again k).
Qed.

Lemma insert_edge_merges_by_id_witness :
  (∃ x, filter (has_id 1)
               (stored_after (insert_edge (Mapped (EdgeSQL, row 1 1 2 one)) ;;
                              insert_edge (Mapped (EdgeSQL, row 1 1 2 two)))
                  (session_over [with_attributes "old" (row 1 1 2 four);
                                 row 2 2 3 one] [])) = [x] ∧
        weight x = two) ∧
  length (stored_after (insert_edge (Mapped (EdgeSQL, row 1 1 2 one)) ;;
                        insert_edge (Mapped (EdgeSQL, row 1 1 2 two)))
            (session_over [with_attributes "old" (row 1 1 2 four);
                           row 2 2 3 one] [])) = 2%nat.
Proof.
  destruct (insert_edge_merges_by_id
              (session_over [with_attributes "old" (row 1 1 2 four);
                             row 2 2 3 one] [])
              (row 1 1 2 one) (row 1 1 2 two) 1)
    as (_ & _ & _ & H1 & (x & H2 & _ & _ & Hw) & H3 & _).
  - split; [reflexivity | constructor].
  - vm_compute. repeat constructor; not_in_list.
  - reflexivity.
  - reflexivity.
  - split; [now exists x |]. rewrite H3, H1. reflexivity.
Defined.

(** * Further properties *)

(** ** Queries *)

(** X1.  [find_edge_or_inv] does not tell its arguments apart as far as the
    edges go: when it returns, it returns with the arguments swapped too,
    and the two answers hold the same edges, each as often as the other,
    in an order that may differ. *)
Theorem find_edge_or_inv_symmetric (s : Session) (a b : Z) (l : list Row) :
  fst (find_edge_or_inv a b s) = Return l ->
  ∃ l', find_edge_or_inv b a s = (Return l', s) ∧ l ≡ₚ l'.
Proof.
  intros Hl. apply session_query_returns in Hl as [Ha ->].
  eexists. split; [unfold find_edge_or_inv; now rewrite session_query_active |].
  rewrite !select_or_Permutation.
  erewrite list_filter_iff; [reflexivity |]. intros e. cbv beta. tauto.
Qed.

Lemma find_edge_or_inv_symmetric_witness :
  ∃ l', find_edge_or_inv 2 1 (session_over [row 1 2 1 one; row 2 1 2 one] []) =
          (Return l', session_over [row 1 2 1 one; row 2 1 2 one] []) ∧
        [row 2 1 2 one; row 1 2 1 one] ≡ₚ l'.
Proof.
  apply (find_edge_or_inv_symmetric
           (session_over [row 1 2 1 one; row 2 1 2 one] []) 1 2).
  reflexivity.
Defined.

Lemma filter_length_or_and {A} (P Q : A -> Prop)
    `{∀ x, Decision (P x), ∀ x, Decision (Q x)} (l : list A) :
  (length (filter (fun x => P x ∨ Q x) l) +
   length (filter (fun x => P x ∧ Q x) l) =
   length (filter P l) + length (filter Q l))%nat.
Proof.
  induction l as [| x l IH]; [reflexivity |].
  rewrite !filter_cons.
  destruct (decide (P x)), (decide (Q x));
    repeat (first [rewrite decide_True by tauto
                  | rewrite decide_False by tauto]);
    cbn [length]; lia.
Qed.

Lemma length_weighted_select_or (P Q : Row -> Prop)
    `{!∀ r, Decision (P r), !∀ r, Decision (Q r)} (rows : list Row) :
  length (weighted (select_or P Q rows)) =
  length (filter (fun e => (weight e ≠ S754_nan ∧ P e) ∨
                           (weight e ≠ S754_nan ∧ Q e)) rows).
Proof.
  unfold weighted. rewrite (select_or_Permutation P Q rows).
  rewrite list_filter_filter. f_equal. apply list_filter_iff. intros e. tauto.
Qed.

(** X2.  The three degree counts agree with each other: the weighted edges
    related to [v] are its weighted followers plus its weighted followings,
    an edge from [v] to itself counted once; the loops are what
    [find_edge_or_inv(v, v)] lists, those without weight left out as the
    counts leave them out. *)
Theorem count_related_splits (s : Session) (v : Z)
    (r i o : Z * option float) (loops : list Row) :
  fst (count_related v s) = Return r ->
  fst (count_followers v s) = Return i ->
  fst (count_following v s) = Return o ->
  fst (find_edge_or_inv v v s) = Return loops ->
  fst r + Z.of_nat (length (weighted loops)) = fst i + fst o.
Proof.
  intros Hr Hi Ho Hl.
  apply session_query_returns in Hr as [_ ->].
  apply session_query_returns in Hi as [_ ->].
  apply session_query_returns in Ho as [_ ->].
  apply session_query_returns in Hl as [_ ->].
  rewrite !count_and_sum_weighted. cbn [fst].
  rewrite !length_weighted_select_or.
  unfold weighted. rewrite !list_filter_filter.
  pose proof (filter_length_or_and
                (fun e => weight e ≠ S754_nan ∧ v_from e = v)
                (fun e => weight e ≠ S754_nan ∧ v_to e = v)
                (table_edges (current s))) as E.
  rewrite (list_filter_iff
             (fun e => (weight e ≠ S754_nan ∧ v_from e = v ∧ v_to e = v) ∨
                       (weight e ≠ S754_nan ∧ v_from e = v ∧ v_to e = v))
             (fun e => (weight e ≠ S754_nan ∧ v_from e = v) ∧
                       (weight e ≠ S754_nan ∧ v_to e = v)))
    by (intros e; tauto).
  lia.
Qed.

Lemma count_related_splits_witness :
  1 + Z.of_nat (length (weighted [row 1 3 3 nan])) = 0 + 1.
Proof.
  apply (count_related_splits (session_over [row 1 3 3 nan; row 2 3 1 one] []) 3
           (1, Some one) (0, None) (1, Some one) [row 1 3 3 nan]);
    reflexivity.
Defined.

(** X3.  [find_edge(a, b)] is the first of the edges [edges_from(a)] lists
    that goes to [b], and nothing when none of them does. *)
Theorem find_edge_first_of_edges_from (s : Session) (a b : Z) (es : list Row) :
  fst (edges_from a s) = Return es ->
  find_edge a b s = (Return (head (filter (fun e => v_to e = b) es)), s).
Proof.
  intros He. apply session_query_returns in He as [Ha ->].
  unfold find_edge. rewrite session_query_active by exact Ha.
  rewrite list_filter_filter. do 3 f_equal.
  apply list_filter_iff. intros e. tauto.
Qed.

Lemma find_edge_first_of_edges_from_witness :
  find_edge 3 3 sample_session = (Return (Some (row 4 3 3 one_half)), sample_session).
Proof.
  apply (find_edge_first_of_edges_from sample_session 3 3
           [row 3 3 1 four; row 4 3 3 one_half]).
  reflexivity.
Defined.

Lemma vertices_cons (r : Row) (rows : list Row) :
  vertices (r :: rows) = {[v_from r]} ∪ ({[v_to r]} ∪ vertices rows).
Proof.
  apply set_eq. intros x.
  rewrite !elem_of_union, !elem_of_singleton, !elem_of_vertices.
  split.
  - intros (e & He & H). apply elem_of_cons in He as [-> | He].
    + destruct H; auto.
    + right. right. now exists e.
  - intros [-> | [-> | (e & He & H)]].
    + exists r. split; [left | auto].
    + exists r. split; [left | auto].
    + exists e. split; [now right | done].
Qed.

Lemma size_union_le (X Y : gset Z) : (size (X ∪ Y) <= size X + size Y)%nat.
Proof.
  rewrite size_union_alt.
  assert (size (Y ∖ X) <= size Y)%nat by (apply subseteq_size, subseteq_difference_l; done).
  lia.
Qed.

Lemma size_vertices_le (rows : list Row) :
  (size (vertices rows) <= 2 * length rows)%nat.
Proof.
  induction rows as [| r rows IH]; [reflexivity |].
  rewrite vertices_cons.
  pose proof (size_union_le {[v_from r]} ({[v_to r]} ∪ vertices rows)) as H1.
  pose proof (size_union_le {[v_to r]} (vertices rows)) as H2.
  rewrite !size_singleton in *. cbn [length]. lia.
Qed.

(** X4.  There are at most two vertices per edge, and no vertex exactly
    when there is no edge: [count_nodes() <= 2 * count_edges()], and one is
    0 when the other is. *)
Theorem count_nodes_bounded (s : Session) (n m : Z) :
  fst (count_nodes s) = Return n -> fst (count_edges s) = Return m ->
  0 <= n <= 2 * m ∧ (n = 0 ↔ m = 0).
Proof.
  intros Hn Hm. apply session_query_returns in Hm as [Ha ->].
  rewrite count_nodes_vertices in Hn by exact Ha. injection Hn as <-.
  pose proof (size_vertices_le (table_edges (current s))) as Hle.
  split; [lia |]. split; intros E.
  - destruct (table_edges (current s)) as [| r rows]; [reflexivity |].
    exfalso. assert (Hs : size (vertices (r :: rows)) = 0%nat) by lia.
    apply size_empty_iff in Hs.
    apply (not_elem_of_empty (C:=gset Z) (v_from r)). rewrite <- Hs.
    apply elem_of_vertices. exists r. split; [left | auto].
  - destruct (table_edges (current s)); [reflexivity | discriminate].
Qed.

Lemma count_nodes_bounded_witness : 0 <= 3 <= 2 * 4 ∧ (3 = 0 ↔ 4 = 0).
Proof.
  apply (count_nodes_bounded sample_session 3 4); reflexivity.
Defined.

Lemma elem_of_related (rows : list Row) (vs : list Z) (x : Z) :
  x ∈ fold_left (related_step vs)
        (filter (fun e => v_from e ∈ vs ∨ v_to e ∈ vs) rows) ∅ ↔
  (x ∉ vs) ∧
  ∃ e, e ∈ rows ∧ ((v_from e = x ∧ v_to e ∈ vs) ∨ (v_to e = x ∧ v_from e ∈ vs)).
Proof.
  rewrite elem_of_related_fold. split.
  - intros [H | (e & He & Hc)]; [now apply not_elem_of_empty in H |].
    apply list_elem_of_filter in He as [Hsel He].
    destruct (proj1 (contributes_selected vs e x) (conj Hsel Hc)) as [Hx H].
    split; [done |]. now exists e.
  - intros [Hx (e & He & H)]. right. exists e.
    destruct (proj2 (contributes_selected vs e x) (conj Hx H)) as [Hsel Hc].
    split; [| done]. apply list_elem_of_filter. now split.
Qed.

Lemma nodes_related_to_group_returns (vs : list Z) (s : Session) (R : gset Z) :
  fst (nodes_related_to_group vs s) = Return R ->
  R = fold_left (related_step vs)
        (filter (fun e => v_from e ∈ vs ∨ v_to e ∈ vs) (table_edges (current s))) ∅.
Proof.
  unfold nodes_related_to_group, bind.
  destruct (session_query _ s) as [[l | e] s'] eqn:E; [| discriminate].
  assert (El : fst (session_query
                      (fun t => filter (fun e => v_from e ∈ vs ∨ v_to e ∈ vs)
                                       (table_edges t)) s) = Return l)
    by now rewrite E.
  apply session_query_returns in El as [_ ->]. now intros [= <-].
Qed.

(** X5.  The frontier of a group is made of vertices of the store outside
    the group, it is empty for the empty group, and it depends on the
    members of the sequence only, not on their order or repetition. *)
Theorem nodes_related_to_group_by_members (s : Session) (vs vs' : list Z)
    (R R' : gset Z) :
  fst (nodes_related_to_group vs s) = Return R ->
  fst (nodes_related_to_group vs' s) = Return R' ->
  (∀ x, x ∈ R -> x ∈ vertices (table_edges (current s)) ∧ (x ∉ vs)) ∧
  (vs = [] -> R = ∅) ∧
  ((∀ x, x ∈ vs ↔ x ∈ vs') -> R = R').
Proof.
  intros H H'. apply nodes_related_to_group_returns in H, H'. subst R R'.
  split; [| split].
  - intros x Hx. apply elem_of_related in Hx as (Hx & e & He & H).
    split; [| done]. apply elem_of_vertices. exists e. tauto.
  - intros ->. apply set_eq. intros x. rewrite elem_of_related. split.
    + intros (_ & e & _ & [[_ H] | [_ H]]); now apply elem_of_nil in H.
    + intros H. now apply not_elem_of_empty in H.
  - intros Hvs. apply set_eq. intros x. rewrite !elem_of_related.
    rewrite Hvs. split; intros (Hx & e & He & H); (split; [done |]);
      exists e; (split; [done |]); rewrite ?Hvs in *; tauto.
Qed.

Lemma nodes_related_to_group_by_members_witness :
  ({[3]} : gset Z) = {[3]} ∧
  ∀ x : Z, x ∈ ({[3]} : gset Z) ->
           x ∈ vertices (table_edges (current sample_session)) ∧ (x ∉ [1; 2]).
Proof.
  destruct (nodes_related_to_group_by_members sample_session
              [1; 2] [2; 1; 2] {[3]} {[3]}) as (H1 & _ & H3);
    [reflexivity | reflexivity |].
  split; [| exact H1]. apply H3. intros x.
  rewrite !elem_of_cons, !elem_of_nil. tauto.
Defined.

(** ** Removal *)

Lemma session_delete_active (c : entity_class) (P : Row -> Prop)
    `{∀ r, Decision (P r)} (s : Session) :
  active s ->
  session_delete c P s =
    (Return (Z.of_nat (length (filter P (table_of c (current s))))),
     set_current (set_table c (filter (fun r => ¬ P r) (table_of c (current s)))
                            (current s)) s).
Proof. intros Ha. unfold session_delete. now rewrite guard_active. Qed.

Lemma filter_length_complement {A} (P : A -> Prop) `{∀ x, Decision (P x)}
    (l : list A) :
  (length (filter P l) + length (filter (fun x => ¬ P x) l) = length l)%nat.
Proof.
  induction l as [| x l IH]; [reflexivity |].
  rewrite !filter_cons. destruct (decide (P x)).
  - rewrite decide_False by tauto. cbn [length]. lia.
  - rewrite decide_True by tauto. cbn [length]. lia.
Qed.

Lemma untouched_not_vertex (v : Z) (rows : list Row) :
  v ∉ vertices (filter (fun e => ¬ touches v e) rows).
Proof.
  intros Hv. apply elem_of_vertices in Hv as (e & He & H).
  apply list_elem_of_filter in He as [Hn _]. now apply Hn.
Qed.

(** X6.  While the storage is healthy, [remove_node(v)] returns the number
    of edges [edges_related(v)] lists, removes exactly the edges that touch
    [v] and commits: the other edges stay in their order, [v] is no vertex
    any more, [count_edges()] drops by the number returned and the staging
    table is as before. *)
Theorem remove_node_removes (s : Session) (v : Z) :
  healthy s ->
  ∃ (n : Z) (es : list Row),
    fst (remove_node v s) = Return n ∧
    fst (edges_related v s) = Return es ∧
    n = Z.of_nat (length es) ∧
    stored_after (remove_node v) s =
      filter (fun e => ¬ touches v e) (table_edges (current s)) ∧
    (v ∉ vertices (stored_after (remove_node v) s)) ∧
    fst (count_edges (exec (remove_node v) s)) =
      Return (Z.of_nat (length (table_edges (current s))) - n) ∧
    new_edges (committed (exec (remove_node v) s)) = new_edges (current s).
Proof.
  intros Hs. pose proof Hs as [Ha _].
  set (rows := table_edges (current s)).
  set (T := mkTables (filter (fun e => ¬ touches v e) rows) (new_edges (current s))).
  assert (E : remove_node v s =
              (Return (Z.of_nat (length (filter (touches v) rows))),
               mkSession T T false (tail (faults s)))).
  { unfold remove_node, try_except, bind.
    rewrite session_delete_active by exact Ha.
    lazymatch goal with
    | |- context [session_commit ?x] =>
        destruct (healthy_commit x) as [Ec _];
          [now apply healthy_set_current | rewrite Ec]
    end.
    reflexivity. }
  exists (Z.of_nat (length (filter (touches v) rows))),
         (select_or (fun e => v_from e = v) (fun e => v_to e = v) rows).
  unfold stored_after, exec. rewrite E. unfold mkSession.
  cbn [fst snd committed table_edges new_edges T].
  split; [reflexivity |]. split; [| split; [| split; [| split; [| split]]]].
  - unfold edges_related. now rewrite session_query_active.
  - f_equal. now rewrite select_or_Permutation.
  - reflexivity.
  - apply untouched_not_vertex.
  - unfold count_edges. rewrite session_query_active by reflexivity.
    cbn [current table_edges fst]. f_equal.
    pose proof (filter_length_complement (touches v) rows).
    subst T. cbn [table_edges]. lia.
  - reflexivity.
Qed.

Lemma remove_node_removes_witness :
  stored_after (remove_node 3) sample_session = [row 1 1 2 one] ∧
  fst (remove_node 3 sample_session) = Return 3.
Proof.
  destruct (remove_node_removes sample_session 3)
    as (n & es & E1 & E2 & En & E3 & _).
  - split; [reflexivity | constructor].
  - split; [exact E3 |]. vm_compute in E2.
    injection E2 as <-. subst n. exact E1.
Defined.

Lemma try_except_refused {A B} (m : M A) (k : A -> M B) (v : B) (s : Session) :
  needs_rollback s = true ->
  try_except (bind (guard m) k) (fun _ => session_rollback ;; ret v) s =
    (Return v, mkSession (committed s) (committed s) false
                         (faults (snd (guard m s)))).
Proof.
  intros Hn. destruct (guard_refused m s Hn) as (e & s' & E & Hc & _).
  unfold try_except, bind. rewrite E. cbn [snd].
  unfold session_rollback, ret. now rewrite Hc.
Qed.

(** X7.  When [remove_node] cannot go through, because its commit fails or
    because the session still waits for a rollback, it returns 0 and rolls
    back: the session works again and holds what the database held, so a
    change that was in flight before the call is dropped with it. *)
Theorem remove_node_fails_safe (s : Session) (v : Z) :
  needs_rollback s = true ∨ (∃ fs, faults s = true :: fs) ->
  ∃ fs', remove_node v s =
           (Return 0, mkSession (committed s) (committed s) false fs').
Proof.
  intros H. destruct (needs_rollback s) eqn:En.
  - eexists. unfold remove_node, session_delete.
    now apply try_except_refused.
  - destruct H as [H | [fs Hf]]; [discriminate |]. exists fs.
    unfold remove_node, try_except, bind.
    rewrite session_delete_active by exact En.
    rewrite (failing_commit _ fs); [reflexivity | exact En | exact Hf].
Qed.

Lemma remove_node_fails_safe_witness :
  ∃ fs', remove_node 1 (mkSession (mkTables sample_rows []) empty_tables false [true]) =
           (Return 0, mkSession (mkTables sample_rows []) (mkTables sample_rows [])
                                false fs').
Proof.
  apply (remove_node_fails_safe
           (mkSession (mkTables sample_rows []) empty_tables false [true]) 1).
  right. now exists [].
Defined.

(** X8.  While the storage is healthy, [remove_all] returns the number of
    rows of the primary and of the staging table together and leaves both
    empty: afterwards [count_edges()] is 0 and [all_vertexes()] is the
    empty set. *)
Theorem remove_all_clears (s : Session) :
  healthy s ->
  fst (remove_all s) =
    Return (Some (Z.of_nat (length (table_edges (current s))) +
                  Z.of_nat (length (new_edges (current s))))) ∧
  committed (exec remove_all s) = empty_tables ∧
  current (exec remove_all s) = empty_tables ∧
  fst (count_edges (exec remove_all s)) = Return 0 ∧
  fst (all_vertexes (exec remove_all s)) = Return ∅ ∧
  fst (count_nodes (exec remove_all s)) = Return 0.
Proof.
  intros Hs. pose proof Hs as [Ha _].
  assert (Hall : ∀ l : list Row, filter (fun _ : Row => True) l = l).
  { induction l as [| x l IH]; [reflexivity |].
    now rewrite filter_cons_True, IH. }
  assert (Hnone : ∀ l : list Row, filter (fun _ : Row => ¬ True) l = []).
  { intros l. apply filter_none. tauto. }
  assert (E : remove_all s =
              (Return (Some (Z.of_nat (length (table_edges (current s))) +
                             Z.of_nat (length (new_edges (current s))))),
               mkSession empty_tables empty_tables false (tail (faults s)))).
  { unfold remove_all, try_except. unfold bind at 1.
    rewrite session_delete_active by exact Ha. unfold bind at 1.
    rewrite session_delete_active by exact Ha.
    cbn [table_of set_table set_current current table_edges new_edges].
    rewrite !Hall, !Hnone.
    unfold bind.
    lazymatch goal with
    | |- context [session_commit ?x] =>
        destruct (healthy_commit x) as [Ec _];
          [split; [exact Ha | apply Hs] | rewrite Ec]
    end.
    reflexivity. }
  unfold exec. rewrite E. cbn [fst snd committed current].
  repeat split.
Qed.

Lemma remove_all_clears_witness :
  fst (remove_all sample_session) = Return (Some 4) ∧
  fst (count_edges (exec remove_all sample_session)) = Return 0.
Proof.
  destruct (remove_all_clears sample_session) as (E1 & _ & _ & E2 & _).
  - split; [reflexivity | constructor].
  - split; [exact E1 | exact E2].
Defined.

(** X9.  When [remove_all] cannot go through it rolls back like
    [remove_node], but its handler returns nothing: the caller gets [None],
    not a count, and the tables are those the database held. *)
Theorem remove_all_fails_with_none (s : Session) :
  needs_rollback s = true ∨ (∃ fs, faults s = true :: fs) ->
  ∃ fs', remove_all s =
           (Return None, mkSession (committed s) (committed s) false fs').
Proof.
  intros H. destruct (needs_rollback s) eqn:En.
  - eexists. unfold remove_all, session_delete at 1.
    now apply try_except_refused.
  - destruct H as [H | [fs Hf]]; [discriminate |]. exists fs.
    unfold remove_all, try_except.
    unfold bind at 1. rewrite session_delete_active by exact En.
    unfold bind at 1. rewrite session_delete_active by exact En.
    unfold bind. rewrite (failing_commit _ fs); [reflexivity | exact En | exact Hf].
Qed.

Lemma remove_all_fails_with_none_witness :
  ∃ fs', remove_all (session_over sample_rows [true]) =
           (Return None, mkSession (mkTables sample_rows []) (mkTables sample_rows [])
                                   false fs').
Proof.
  apply (remove_all_fails_with_none (session_over sample_rows [true])).
  right. now exists [].
Defined.

(** ** Insertion, one by one and in batches *)

Lemma insert_edge_each (es : list edge_arg) (s : Session) :
  healthy s -> Forall with_key es ->
  ∃ s', for_each es insert_edge s = (Return tt, s') ∧ healthy s' ∧
        current s' =
          merge_entities ((fun e => _to_sql e EdgeSQL) <$> es) (current s).
Proof.
  revert s. induction es as [| e es IH]; intros s Hs Hk.
  - exists s. split; [reflexivity | split; [exact Hs | reflexivity]].
  - apply Forall_cons in Hk as [He Hk].
    cbn [for_each]. unfold bind at 1. rewrite insert_edge_healthy by done.
    destruct (IH _ (healthy_after_commit
                      (merge_entities [_to_sql e EdgeSQL] (current s)) s Hs) Hk)
      as (s' & E & Hs' & Hc).
    exists s'. split; [exact E |]. split; [exact Hs' |].
    rewrite Hc. reflexivity.
Qed.

(** X10.  While the storage is healthy a batch of edges that carry their
    primary keys is worth its edges inserted one by one:
    [insert_edges(es)] returns [len(es)] and leaves the tables that
    [insert_edge] leaves when it is called on each edge in turn, the last
    edge winning where several share an id. *)
Theorem insert_edges_as_insert_edge (es : list edge_arg) (s : Session) :
  healthy s -> Forall with_key es ->
  fst (insert_edges es s) = Return (Z.of_nat (length es)) ∧
  current (exec (insert_edges es) s) =
    current (exec (for_each es insert_edge) s) ∧
  committed (exec (insert_edges es) s) = current (exec (insert_edges es) s).
Proof.
  intros Hs Hk. destruct (insert_edge_each es s Hs Hk) as (s' & E & _ & Hc).
  unfold exec. rewrite insert_edges_commit_ok by done. rewrite E.
  unfold mkSession. cbn [fst snd current committed]. now rewrite Hc.
Qed.

Lemma insert_edges_as_insert_edge_witness :
  fst (insert_edges [Mapped (EdgeSQL, row 1 1 2 two); Mapped (EdgeSQL, row 1 1 2 four)]
                    sample_session) = Return 2 ∧
  current (exec (insert_edges [Mapped (EdgeSQL, row 1 1 2 two);
                               Mapped (EdgeSQL, row 1 1 2 four)]) sample_session) =
  current (exec (for_each [Mapped (EdgeSQL, row 1 1 2 two);
                           Mapped (EdgeSQL, row 1 1 2 four)] insert_edge)
                sample_session).
Proof.
  destruct (insert_edges_as_insert_edge
              [Mapped (EdgeSQL, row 1 1 2 two); Mapped (EdgeSQL, row 1 1 2 four)]
              sample_session) as (E1 & E2 & _).
  - split; [reflexivity | constructor].
  - repeat constructor; now eexists.
  - split; [exact E1 | exact E2].
Defined.

Lemma keyless_converted (e : edge_arg) :
  ¬ with_key e -> _id (snd (_to_sql e EdgeSQL)) = None.
Proof.
  intros He. destruct (_id (snd (_to_sql e EdgeSQL))) eqn:E; [| reflexivity].
  exfalso. apply He. unfold with_key, converted. now rewrite E.
Qed.

(** X11.  [insert_edge] has no handler: when its commit fails the error
    reaches the caller, where [insert_edges] of the same edge returns 0.
    The edge is stored by neither, and both leave the session waiting for a
    rollback. *)
Theorem insert_edge_propagates_failure (e : edge_arg) (s : Session)
    (fs : list bool) :
  active s -> faults s = true :: fs ->
  insert_edge e s =
    (Raise OperationalError, mkSession (committed s) (committed s) true fs) ∧
  insert_edges [e] s =
    (Return 0, mkSession (committed s) (committed s) true fs).
Proof.
  intros Ha Hf. destruct (decide (with_key e)) as [He | He].
  - split.
    + unfold insert_edge, bind. rewrite session_merge_keyed by done.
      now rewrite (failing_commit _ fs).
    + apply insert_edges_commit_fails; [done | done |]. now constructor.
  - destruct (session_merge_keyless _ s Ha (keyless_converted e He)) as [Em Hst].
    split.
    + unfold insert_edge, bind. rewrite Em. unfold session_commit.
      rewrite Hst. cbn [faults add_pending]. now rewrite Hf.
    + unfold insert_edges, try_except. cbn [for_each]. unfold bind, ret.
      rewrite Em. unfold session_commit.
      rewrite Hst. cbn [faults add_pending]. now rewrite Hf.
Qed.

Lemma insert_edge_propagates_failure_witness :
  fst (insert_edge (Mapped (EdgeSQL, row 9 1 3 one)) (session_over sample_rows [true])) =
    Raise OperationalError.
Proof.
  destruct (insert_edge_propagates_failure (Mapped (EdgeSQL, row 9 1 3 one))
              (session_over sample_rows [true]) []) as [E _];
    [reflexivity | reflexivity |].
  now rewrite E.
Defined.

(** X12.  On a session that waits for a rollback, [insert_edges] answers by
    what the batch makes it send: the empty batch returns 0, because the
    refused commit is caught; a batch whose first record has its primary key
    raises, because the lookup of the merge is refused outside the handler;
    a single record without primary key is merged without a statement, so
    that the batch returns 0 like the empty one.  The database and the
    waiting are as before in all three cases. *)
Theorem insert_edges_on_waiting_session (s : Session) (e : edge_arg)
    (es : list edge_arg) (p : bool) :
  status s = Inactive p ->
  insert_edges [] s = (Return 0, s) ∧
  (with_key e -> insert_edges (e :: es) s = (Raise InvalidRequestError, s)) ∧
  (¬ with_key e -> p = false ->
   fst (insert_edges [e] s) = Return 0 ∧
   committed (exec (insert_edges [e]) s) = committed s ∧
   needs_rollback (exec (insert_edges [e]) s) = true).
Proof.
  intros Hst. split; [| split].
  - unfold insert_edges, try_except, bind. cbn [for_each].
    unfold ret, session_commit. now rewrite Hst.
  - intros [k Hk]. unfold insert_edges, bind. cbn [for_each].
    unfold bind, session_merge, bind, session_flush, send.
    unfold converted in Hk. rewrite Hk, Hst.
    destruct p; [reflexivity | now rewrite Hst].
  - intros He ->. apply keyless_converted in He.
    unfold exec, insert_edges, try_except, bind. cbn [for_each].
    unfold bind, session_merge, bind, session_flush.
    rewrite He, Hst. unfold ret, session_commit, add_pending, needs_rollback.
    cbn [status]. rewrite Hst. now repeat split.
Qed.

Lemma insert_edges_on_waiting_session_witness :
  insert_edges [Mapped (EdgeSQL, row 9 1 3 one)]
               (mkSession empty_tables empty_tables true []) =
    (Raise InvalidRequestError, mkSession empty_tables empty_tables true []) ∧
  fst (insert_edges [Plain (mkEdge None 1 3 one None)]
                    (mkSession empty_tables empty_tables true [])) = Return 0.
Proof.
  destruct (insert_edges_on_waiting_session
              (mkSession empty_tables empty_tables true [])
              (Mapped (EdgeSQL, row 9 1 3 one)) [] false eq_refl)
    as (_ & H & _).
  destruct (insert_edges_on_waiting_session
              (mkSession empty_tables empty_tables true [])
              (Plain (mkEdge None 1 3 one None)) [] false eq_refl)
    as (_ & _ & H').
  split; [apply H; now eexists |]. apply H'; [apply plain_keyless | reflexivity].
Defined.

(** X13.  The class of a mapped instance decides its table, not the
    [e_type] that [insert_edge] passes: an [EdgeNew] instance whose id is
    not staged yet becomes a new row of the staging table and the primary
    table does not see it, and [flush_temporary_table] afterwards empties
    the staging table and leaves the primary table alone. *)
Theorem insert_edge_staged_instance (r : Row) (k : Z) (s : Session) :
  healthy s -> _id r = Some k -> k ∉ ids (new_edges (current s)) ->
  fst (insert_edge (Mapped (EdgeNew, r)) s) = Return tt ∧
  committed (exec (insert_edge (Mapped (EdgeNew, r))) s) =
    mkTables (table_edges (current s)) (new_edges (current s) ++ [r]) ∧
  fst ((insert_edge (Mapped (EdgeNew, r)) ;; flush_temporary_table) s) = Return tt ∧
  committed (exec (insert_edge (Mapped (EdgeNew, r)) ;; flush_temporary_table) s) =
    mkTables (table_edges (current s)) [].
Proof.
  intros Hs Hr Hk. unfold exec, bind.
  rewrite insert_edge_healthy; [| exact Hs | now exists k].
  cbn [fst snd].
  set (T := merge_entities [_to_sql (Mapped (EdgeNew, r)) EdgeSQL] (current s)).
  assert (ET : T = mkTables (table_edges (current s))
                            (new_edges (current s) ++ [r])).
  { subst T. cbn. unfold merge_row. rewrite Hr. now rewrite decide_False. }
  pose proof (healthy_after_commit T s Hs) as Hs1.
  unfold flush_temporary_table, bind, session_execute.
  rewrite send_active by apply Hs1.
  change (class_of_table (__tablename__ EdgeNew)) with (Some EdgeNew).
  cbv beta iota.
  lazymatch goal with
  | |- context [session_commit ?x] =>
      destruct (healthy_commit x) as [Ec _];
        [now apply healthy_set_current | rewrite Ec]
  end.
  unfold mkSession. cbn [fst snd committed current set_current]. rewrite ET.
  repeat split.
Qed.

Lemma insert_edge_staged_instance_witness :
  committed (exec (insert_edge (Mapped (EdgeNew, row 9 1 3 one))) sample_session) =
    mkTables sample_rows [row 9 1 3 one].
Proof.
  destruct (insert_edge_staged_instance (row 9 1 3 one) 9 sample_session)
    as (_ & E & _).
  - split; [reflexivity | constructor].
  - reflexivity.
  - apply not_elem_of_nil.
  - exact E.
Defined.

(** X14.  Insert, then look up: while the storage is healthy and ids are
    unique, after [insert_edge] of an instance with the id [k], [find_edge]
    on its endpoints returns the edge stored under [k], with the endpoints
    and the weight of the instance, and with its attributes when the
    instance has them set and the attributes stored before when it does
    not, provided no edge under another id joins the same endpoints. *)
Theorem insert_edge_then_find_edge (s : Session) (r : Row) (k : Z) :
  healthy s -> NoDup (ids (table_edges (current s))) -> _id r = Some k ->
  (∀ x, x ∈ table_edges (current s) ->
        v_from x = v_from r -> v_to x = v_to r -> has_id k x) ->
  ∃ x, fst (find_edge (v_from r) (v_to r)
                      (exec (insert_edge (Mapped (EdgeSQL, r))) s)) =
         Return (Some x) ∧
       _id x = Some k ∧ v_from x = v_from r ∧ v_to x = v_to r ∧
       weight x = weight r ∧
       attributes_json x =
         match attributes_json r with
         | Some a => Some a
         | None => stored_attributes k (table_edges (current s))
         end.
Proof.
  intros Hs Hnd Hr Hothers.
  exists (merged k r (table_edges (current s))).
  destruct (merged_columns k r (table_edges (current s))) as (Ef & Et & Ew & Ea).
  split; [| split; [now apply merged_id | tauto]].
  unfold exec.
  rewrite insert_edge_healthy; [| exact Hs | now exists k]. cbn [snd].
  unfold find_edge. rewrite session_query_active by reflexivity.
  unfold mkSession.
  cbn [fst current merge_entities fold_left _to_sql fst snd table_of set_table
       table_edges].
  set (rows' := merge_row r (table_edges (current s))).
  assert (E : filter (fun e => v_from e = v_from r ∧ v_to e = v_to r) rows' =
              filter (fun e => v_from e = v_from r ∧ v_to e = v_to r)
                     (filter (has_id k) rows')).
  { rewrite list_filter_filter. apply filter_iff_on. intros x Hx.
    split; [| tauto]. intros [Ef' Et']. split; [tauto |].
    destruct (decide (has_id k x)) as [Hk | Hk]; [exact Hk |].
    assert (Hx' : x ∈ filter (fun y => ¬ has_id k y) rows')
      by (apply list_elem_of_filter; now split).
    subst rows'. rewrite (merge_row_others k r Hr) in Hx'.
    apply list_elem_of_filter in Hx' as [_ Hx']. now apply Hothers. }
  rewrite E. subst rows'. rewrite (merge_row_keyed k r Hr) by exact Hnd.
  now rewrite filter_cons_True by auto.
Qed.

Lemma insert_edge_then_find_edge_witness :
  ∃ x, fst (find_edge 1 2
              (exec (insert_edge (Mapped (EdgeSQL, row 1 1 2 four)))
                    (session_over [with_attributes "old" (row 1 1 2 one);
                                   row 2 2 3 two] []))) = Return (Some x) ∧
       weight x = four ∧ attributes_json x = Some "old"%string.
Proof.
  destruct (insert_edge_then_find_edge
              (session_over [with_attributes "old" (row 1 1 2 one);
                             row 2 2 3 two] [])
              (row 1 1 2 four) 1) as (x & E & _ & _ & _ & Ew & Ea).
  - split; [reflexivity | constructor].
  - vm_compute. repeat constructor; not_in_list.
  - reflexivity.
  - intros x Hx Ef Et. cbn in Ef, Et.
    repeat (apply elem_of_cons in Hx as [-> | Hx];
            [first [reflexivity | discriminate Ef | discriminate Et] |]).
    now apply elem_of_nil in Hx.
  - exists x. split; [exact E |]. split; [exact Ew | exact Ea].
Defined.

(** X23.  A record that is not an instance of a mapped class is never
    stored: [_to_sql] builds the instance from the endpoints and the weight
    alone, so it reaches the session without primary key whatever the
    record holds, and the store refuses the row.  While the storage is
    healthy [insert_edge] raises, [insert_edges] of the one record returns
    0, the database is as before and the session is left waiting for a
    rollback. *)
Theorem insert_record_refused (e : Edge) (s : Session) :
  healthy s ->
  _id (snd (_to_sql (Plain e) EdgeSQL)) = None ∧
  fst (insert_edge (Plain e) s) = Raise IntegrityError ∧
  fst (insert_edges [Plain e] s) = Return 0 ∧
  committed (exec (insert_edge (Plain e)) s) = committed s ∧
  committed (exec (insert_edges [Plain e]) s) = committed s ∧
  needs_rollback (exec (insert_edge (Plain e)) s) = true ∧
  needs_rollback (exec (insert_edges [Plain e]) s) = true.
Proof.
  intros Hs. pose proof Hs as [Ha Hf].
  split; [reflexivity |].
  unfold exec. rewrite insert_edge_keyless by (done || apply plain_keyless).
  destruct (session_merge_keyless (_to_sql (Plain e) EdgeSQL) s Ha eq_refl)
    as [Em Hst].
  unfold insert_edges, try_except. cbn [for_each]. unfold bind, ret.
  rewrite Em. unfold session_commit. rewrite Hst. cbn [faults add_pending].
  destruct (faults s) as [| [|] fs]; repeat split; reflexivity.
Qed.

Lemma insert_record_refused_witness :
  fst (insert_edge (Plain (mkEdge (Some 7) 1 2 one (Some "{}"%string)))
                   sample_session) = Raise IntegrityError ∧
  committed (exec (insert_edge (Plain (mkEdge (Some 7) 1 2 one (Some "{}"%string))))
                  sample_session) = committed sample_session.
Proof.
  destruct (insert_record_refused (mkEdge (Some 7) 1 2 one (Some "{}"%string))
              sample_session) as (_ & E1 & _ & E2 & _).
  - split; [reflexivity | constructor].
  - split; [exact E1 | exact E2].
Defined.

(** ** Removal by record *)

Lemma remove_edge_keyed (e : gmap string Z) (k : Z) (s : Session) :
  healthy s -> e !! "_id"%string = Some k ->
  remove_edge e s =
    (Return (inr tt),
     mkSession
       (mkTables (filter (fun r => ¬ has_id k r) (table_edges (current s)))
                 (new_edges (current s)))
       (mkTables (filter (fun r => ¬ has_id k r) (table_edges (current s)))
                 (new_edges (current s)))
       false (tail (faults s))).
Proof.
  intros Hs Hk. pose proof Hs as [Ha _]. unfold remove_edge, getitem.
  rewrite decide_True by (rewrite Hk; eauto). rewrite Hk.
  unfold bind. rewrite session_delete_active by exact Ha.
  lazymatch goal with
  | |- context [session_commit ?x] =>
      destruct (healthy_commit x) as [Ec _];
        [now apply healthy_set_current | rewrite Ec]
  end.
  reflexivity.
Qed.

(** X15.  A record that holds the key [_id] is removed by id, whatever
    endpoints it names: while the storage is healthy [remove_edge] deletes
    the edge stored under that id and no other, and an id that is not
    stored is no error and changes nothing. *)
Theorem remove_edge_by_id (e : gmap string Z) (k : Z) (s : Session) :
  healthy s -> e !! "_id"%string = Some k ->
  fst (remove_edge e s) = Return (inr tt) ∧
  stored_after (remove_edge e) s =
    filter (fun r => ¬ has_id k r) (table_edges (current s)) ∧
  (k ∉ ids (stored_after (remove_edge e) s)) ∧
  (k ∉ ids (table_edges (current s)) ->
   stored_after (remove_edge e) s = table_edges (current s)).
Proof.
  intros Hs Hk. unfold stored_after, exec.
  rewrite (remove_edge_keyed e k s Hs Hk). unfold mkSession.
  cbn [fst snd committed table_edges].
  repeat split.
  - intros Hin. apply elem_of_ids in Hin as (x & Hx & Hid).
    apply list_elem_of_filter in Hx as [Hn _]. now apply Hn.
  - intros Hn. apply filter_all. intros x Hx Hid. apply Hn, elem_of_ids.
    now exists x.
Qed.

Lemma remove_edge_by_id_witness :
  stored_after (remove_edge {[ "_id"%string := 2; "v_from"%string := 1;
                               "v_to"%string := 2 ]}) sample_session =
    [row 1 1 2 one; row 3 3 1 four; row 4 3 3 one_half].
Proof.
  destruct (remove_edge_by_id {[ "_id"%string := 2; "v_from"%string := 1;
                                 "v_to"%string := 2 ]} 2 sample_session)
    as (_ & E & _).
  - split; [reflexivity | constructor].
  - reflexivity.
  - exact E.
Defined.

(** X16.  A record without the key [_id] is removed by its endpoints:
    every edge from [v_from] to [v_to] goes, so that [find_edge] on the pair
    finds nothing afterwards, and the edges in the opposite direction
    stay. *)
Theorem remove_edge_by_endpoints (e : gmap string Z) (a b : Z) (s : Session) :
  healthy s ->
  e !! "_id"%string = None -> e !! "v_from"%string = Some a ->
  e !! "v_to"%string = Some b ->
  fst (remove_edge e s) = Return (inr tt) ∧
  stored_after (remove_edge e) s =
    filter (fun r => ¬ (v_from r = a ∧ v_to r = b)) (table_edges (current s)) ∧
  fst (find_edge a b (exec (remove_edge e) s)) = Return None ∧
  (a ≠ b ->
   fst (find_edge_or_inv a b (exec (remove_edge e) s)) =
   Return (filter (fun r => v_from r = b ∧ v_to r = a) (table_edges (current s)))).
Proof.
  intros Hs Hk Hf Ht. pose proof Hs as [Ha _].
  assert (E : remove_edge e s =
    (Return (inr tt),
     mkSession
       (mkTables (filter (fun r => ¬ (v_from r = a ∧ v_to r = b))
                         (table_edges (current s))) (new_edges (current s)))
       (mkTables (filter (fun r => ¬ (v_from r = a ∧ v_to r = b))
                         (table_edges (current s))) (new_edges (current s)))
       false (tail (faults s)))).
  { unfold remove_edge, getitem.
    rewrite decide_False by (rewrite Hk; intros [? ?]; discriminate).
    rewrite Hf, Ht. unfold bind. rewrite session_delete_active by exact Ha.
    lazymatch goal with
    | |- context [session_commit ?x] =>
        destruct (healthy_commit x) as [Ec _];
          [now apply healthy_set_current | rewrite Ec]
    end.
    reflexivity. }
  unfold stored_after, exec. rewrite E.
  unfold find_edge, find_edge_or_inv.
  rewrite !session_query_active by reflexivity. unfold mkSession.
  cbn [fst snd committed current table_edges].
  repeat split.
  - f_equal. apply head_None. rewrite list_filter_filter.
    apply filter_none. tauto.
  - intros Hab. f_equal. rewrite select_or_right.
    + rewrite list_filter_filter.
      apply list_filter_iff. intros r. split; [tauto |].
      intros [Er Et]. split; [tauto |]. intros [Er' Et']. congruence.
    + intros r Hr. apply list_elem_of_filter in Hr. tauto.
Qed.

Lemma remove_edge_by_endpoints_witness :
  stored_after (remove_edge {[ "v_from"%string := 3; "v_to"%string := 1 ]})
               sample_session =
    [row 1 1 2 one; row 2 2 3 two; row 4 3 3 one_half].
Proof.
  destruct (remove_edge_by_endpoints {[ "v_from"%string := 3; "v_to"%string := 1 ]}
              3 1 sample_session) as (_ & E & _).
  - split; [reflexivity | constructor].
  - reflexivity.
  - reflexivity.
  - reflexivity.
  - exact E.
Defined.

(** X17.  A record that holds neither [_id] nor both endpoints makes
    [remove_edge] fail with [KeyError] before it issues any statement, the
    session being exactly as it was, on every session.  The key reported is
    the first one missing in the order the code reads them: [v_from] when
    the record does not hold it, whether or not it holds [v_to], and [v_to]
    when only that one is missing. *)
Theorem remove_edge_missing_key (e : gmap string Z) (s : Session) :
  e !! "_id"%string = None ->
  (e !! "v_from"%string = None ->
   remove_edge e s = (Return (inl (KeyError "v_from")), s)) ∧
  (is_Some (e !! "v_from"%string) -> e !! "v_to"%string = None ->
   remove_edge e s = (Return (inl (KeyError "v_to")), s)).
Proof.
  intros Hk. unfold remove_edge, getitem.
  rewrite decide_False by (rewrite Hk; intros [? ?]; discriminate).
  split.
  - intros Hf. now rewrite Hf.
  - intros [a Hf] Ht. now rewrite Hf, Ht.
Qed.

Lemma remove_edge_missing_key_witness :
  remove_edge ∅ sample_session =
    (Return (inl (KeyError "v_from")), sample_session) ∧
  remove_edge {[ "v_to"%string := 2 ]} sample_session =
    (Return (inl (KeyError "v_from")), sample_session) ∧
  remove_edge {[ "v_from"%string := 1 ]} sample_session =
    (Return (inl (KeyError "v_to")), sample_session).
Proof.
  split; [| split].
  - now apply (remove_edge_missing_key ∅ sample_session).
  - now apply (remove_edge_missing_key {[ "v_to"%string := 2 ]} sample_session).
  - apply (remove_edge_missing_key {[ "v_from"%string := 1 ]} sample_session);
      [reflexivity | now exists 1 | reflexivity].
Defined.

(** X18.  Insert, then remove: while the storage is healthy, inserting an
    edge under an id that is not stored and removing it again by that id
    gives the primary table back as it was. *)
Theorem insert_edge_then_remove_edge (s : Session) (r : Row) (k : Z)
    (e : gmap string Z) :
  healthy s -> _id r = Some k -> k ∉ ids (table_edges (current s)) ->
  e !! "_id"%string = Some k ->
  fst ((insert_edge (Mapped (EdgeSQL, r)) ;; remove_edge e) s) = Return (inr tt) ∧
  stored_after (insert_edge (Mapped (EdgeSQL, r)) ;; remove_edge e) s =
    table_edges (current s).
Proof.
  intros Hs Hr Hn Hk. unfold stored_after, exec, bind.
  rewrite insert_edge_healthy; [| exact Hs | now exists k].
  rewrite (remove_edge_keyed e k) by (try apply healthy_after_commit; done).
  unfold mkSession.
  cbn [fst snd committed current table_edges merge_entities fold_left _to_sql
       table_of set_table].
  split; [reflexivity |].
  unfold merge_row. rewrite Hr. rewrite decide_False by exact Hn.
  rewrite filter_app, filter_cons_False, filter_nil, app_nil_r
    by (intros Hx; now apply Hx).
  apply filter_all. intros x Hx Hid. apply Hn, elem_of_ids. now exists x.
Qed.

Lemma insert_edge_then_remove_edge_witness :
  stored_after (insert_edge (Mapped (EdgeSQL, row 9 1 3 one)) ;;
                remove_edge {[ "_id"%string := 9 ]}) sample_session = sample_rows.
Proof.
  destruct (insert_edge_then_remove_edge sample_session (row 9 1 3 one) 9
              {[ "_id"%string := 9 ]}) as [_ E].
  - split; [reflexivity | constructor].
  - reflexivity.
  - vm_compute. not_in_list.
  - reflexivity.
  - exact E.
Defined.

(** ** Bulk load, on any session *)

Lemma try_except_rollback {A} (m : M A) (v : A) :
  raises m ->
  forall s, ∃ s',
    try_except m (fun _ => session_rollback ;; ret v) s =
    (Return v, mkSession (committed s') (committed s') false (faults s')).
Proof.
  intros Hm s. destruct (Hm s) as (e & s' & E). exists s'.
  unfold try_except. now rewrite E.
Qed.

(** X19.  [insert_dump] always ends in its handler's rollback: whatever
    session it is called on, one that waits for a rollback included, it
    hands back a session that accepts statements and has nothing in
    flight. *)
Theorem insert_dump_leaves_session_clean (dump : list edge_arg) (s : Session) :
  active (exec (insert_dump dump) s) ∧
  current (exec (insert_dump dump) s) = committed (exec (insert_dump dump) s).
Proof.
  unfold exec, insert_dump.
  lazymatch goal with
  | |- context [try_except ?m _ s] =>
      assert (Hr : raises m)
  end.
  { do 3 (apply bind_raises_r; intros ?).
    apply bind_raises_l. intros s'. eexists _, _. apply insert_table_raises. }
  destruct (try_except_rollback _ 0 Hr s) as (s' & E).
  rewrite E. now split.
Qed.

(** ** [SQLite] *)

Lemma pragma_step (p : string) (s : Session) :
  healthy s ->
  (session_execute_pragma p ;; session_commit) s =
    (Return tt, mkSession (current s) (current s) false (tail (faults s))).
Proof.
  intros Hs. pose proof Hs as [Ha _].
  unfold bind, session_execute_pragma. rewrite send_active by exact Ha.
  cbn [ret]. now destruct (healthy_commit s Hs) as [-> _].
Qed.

Lemma pragma_steps (ps : list string) (s : Session) :
  healthy s ->
  for_each ps (fun p => session_execute_pragma p ;; session_commit) s =
    (Return tt,
     match ps with
     | [] => s
     | _ => mkSession (current s) (current s) false (drop (length ps) (faults s))
     end).
Proof.
  revert s. induction ps as [| p ps IH]; intros s Hs; [reflexivity |].
  cbn [for_each]. unfold bind at 1. rewrite pragma_step by exact Hs.
  rewrite IH by now apply healthy_after_commit.
  f_equal. unfold mkSession. destruct ps as [| q ps]; cbn [length current faults].
  - now destruct (faults s).
  - f_equal. now destruct (faults s).
Qed.

(** X20.  [set_pragmas_on_first_launch] looks at the primary table only:
    on a store that holds an edge it issues no statement and no commit, and
    on a store without edges it issues the five pragmas, each followed by a
    commit, which makes durable whatever else was in flight, the staging
    table included. *)
Theorem set_pragmas_only_without_edges (s : Session) :
  healthy s ->
  (table_edges (current s) ≠ [] ->
   set_pragmas_on_first_launch s = (Return tt, s)) ∧
  (table_edges (current s) = [] ->
   set_pragmas_on_first_launch s =
     (Return tt, mkSession (current s) (current s) false (drop 5 (faults s)))).
Proof.
  intros Hs. pose proof Hs as [Ha _].
  unfold set_pragmas_on_first_launch, bind, count_edges.
  rewrite session_query_active by exact Ha. split; intros Hrows.
  - rewrite decide_True; [reflexivity |].
    destruct (table_edges (current s)); [done | cbn; lia].
  - rewrite Hrows. rewrite decide_False by (cbn; lia).
    now rewrite pragma_steps.
Qed.

Lemma set_pragmas_only_without_edges_witness :
  set_pragmas_on_first_launch sample_session = (Return tt, sample_session) ∧
  set_pragmas_on_first_launch
    (mkSession empty_tables (mkTables [] [row 1 1 2 one]) false []) =
  (Return tt,
   mkSession (mkTables [] [row 1 1 2 one]) (mkTables [] [row 1 1 2 one]) false []).
Proof.
  split.
  - destruct (set_pragmas_only_without_edges sample_session) as [H _].
    + split; [reflexivity | constructor].
    + apply H. intros E. discriminate E.
  - destruct (set_pragmas_only_without_edges
                (mkSession empty_tables (mkTables [] [row 1 1 2 one]) false []))
      as [_ H].
    + split; [reflexivity | constructor].
    + apply H. reflexivity.
Defined.

(** ** The primary keys *)

Lemma update_row_keys (k : Z) (r : Row) (rows : list Row) :
  Forall (fun x => is_Some (_id x)) rows ->
  Forall (fun x => is_Some (_id x)) (update_row k r rows).
Proof.
  induction 1 as [| x rows Hx Hrows IH]; cbn; [constructor |].
  destruct (decide (has_id k x)); constructor; auto.
Qed.

Lemma keyed_nil : keyed [].
Proof. split; constructor. Qed.

Lemma keyed_merge_row (r : Row) (rows : list Row) :
  keyed rows -> keyed (merge_row r rows).
Proof.
  intros [Hnd Hall]. split; [now apply merge_row_NoDup_any |].
  unfold merge_row. destruct (_id r) as [k |] eqn:Er; [| exact Hall].
  destruct (decide (k ∈ ids rows)).
  - now apply update_row_keys.
  - apply Forall_app. split; [done |]. repeat constructor. rewrite Er. eauto.
Qed.

Lemma ids_filter_sublist (P : Row -> Prop) `{∀ r, Decision (P r)}
    (rows : list Row) :
  ids (filter P rows) `sublist_of` ids rows.
Proof.
  induction rows as [| x rows IH]; [constructor |].
  rewrite filter_cons. destruct (decide (P x)).
  - rewrite !ids_cons. destruct (_id x); [now constructor | done].
  - rewrite ids_cons. destruct (_id x); [now constructor | done].
Qed.

Lemma keyed_filter (P : Row -> Prop) `{∀ r, Decision (P r)} (rows : list Row) :
  keyed rows -> keyed (filter P rows).
Proof.
  intros [Hnd Hall]. split.
  - eapply sublist_NoDup; [exact Hnd | apply ids_filter_sublist].
  - apply Forall_forall. intros x Hx. apply list_elem_of_filter in Hx as [_ Hx].
    rewrite Forall_forall in Hall. now apply Hall.
Qed.

Lemma well_keyed_table_of (c : entity_class) (t : Tables) :
  well_keyed t -> keyed (table_of c t).
Proof. intros [H1 H2]. now destruct c. Qed.

Lemma well_keyed_set_table (c : entity_class) (rows : list Row) (t : Tables) :
  keyed rows -> well_keyed t -> well_keyed (set_table c rows t).
Proof. intros Hr [H1 H2]. destruct c; now split. Qed.

Section Preserves.
Context {A B : Type}.

Lemma preserves_ret (a : A) : preserves (ret a).
Proof. now intros s Hs. Qed.

Lemma preserves_bind (m : M A) (k : A -> M B) :
  preserves m -> (∀ a, preserves (k a)) -> preserves (bind m k).
Proof.
  intros Hm Hk s Hs. unfold bind. specialize (Hm s Hs).
  destruct (m s) as [[a | e] s']; cbn in *; [now apply Hk | done].
Qed.

Lemma preserves_try_except (m : M A) (h : exn -> M A) :
  preserves m -> (∀ e, preserves (h e)) -> preserves (try_except m h).
Proof.
  intros Hm Hh s Hs. unfold try_except. specialize (Hm s Hs).
  destruct (m s) as [[a | e] s']; cbn in *; [done | now apply Hh].
Qed.

Lemma preserves_send (m : M A) : preserves m -> preserves (send m).
Proof.
  intros Hm s Hs. unfold send. destruct (status s); [now apply Hm | now apply Hm | done].
Qed.
End Preserves.

Lemma preserves_flush : preserves session_flush.
Proof.
  intros s Hs. unfold session_flush.
  destruct (status s) as [| | [|]]; try exact Hs.
  destruct Hs as [Hc _]. now split.
Qed.

Lemma preserves_guard {A} (m : M A) : preserves m -> preserves (guard m).
Proof.
  intros Hm. apply preserves_bind; [apply preserves_flush |].
  intros _. now apply preserves_send.
Qed.

Lemma preserves_for_each {A} (xs : list A) (body : A -> M unit) :
  (∀ x, preserves (body x)) -> preserves (for_each xs body).
Proof.
  intros Hb. induction xs as [| x xs IH]; cbn [for_each].
  - now intros s Hs.
  - apply preserves_bind; [apply Hb | intros _; apply IH].
Qed.

Lemma preserves_merge (m : entity) : preserves (session_merge m).
Proof.
  apply preserves_bind; [apply preserves_flush | intros _].
  destruct (_id (snd m)).
  - apply preserves_send. intros s [Hc Hv]. split; [exact Hc |]. cbn.
    apply well_keyed_set_table; [| exact Hv].
    now apply keyed_merge_row, well_keyed_table_of.
  - now intros s Hs.
Qed.

Lemma preserves_delete (c : entity_class) (P : Row -> Prop)
    `{∀ r, Decision (P r)} : preserves (session_delete c P).
Proof.
  apply preserves_guard. intros s [Hc Hv]. split; [exact Hc |]. cbn.
  apply well_keyed_set_table; [| exact Hv].
  now apply keyed_filter, well_keyed_table_of.
Qed.

Lemma preserves_commit : preserves session_commit.
Proof.
  intros s [Hc Hv]. unfold session_commit.
  destruct (status s); destruct (faults s) as [| [|] fs]; now split.
Qed.

Lemma preserves_rollback : preserves session_rollback.
Proof. intros s [Hc Hv]. now split. Qed.

Lemma preserves_query {A} (q : Tables -> A) : preserves (session_query q).
Proof. apply preserves_guard. now intros s Hs. Qed.

Lemma preserves_truncate (c : entity_class) :
  preserves (session_execute (DeleteFrom (__tablename__ c))).
Proof.
  apply preserves_send. intros s [Hc Hv].
  replace (class_of_table (__tablename__ c)) with (Some c) by now destruct c.
  split; [exact Hc |]. cbn.
  apply well_keyed_set_table; [apply keyed_nil | exact Hv].
Qed.

Lemma preserves_insert_edges (es : list edge_arg) : preserves (insert_edges es).
Proof.
  apply preserves_bind.
  - apply preserves_for_each. intros e. apply preserves_merge.
  - intros _. apply preserves_try_except.
    + apply preserves_bind; [apply preserves_commit | intros _; apply preserves_ret].
    + intros _. apply preserves_ret.
Qed.

Lemma preserves_insert_table (source_name : string) :
  preserves (insert_table source_name).
Proof. intros s Hs. now rewrite insert_table_raises. Qed.

(** X21.  Every operation that writes keeps the primary keys sound: if
    each stored row has an id and no two rows of a table share one, in the
    database and in the transaction, the same holds after [insert_edge],
    [insert_edges], [remove_edge], [remove_node], [remove_all],
    [flush_temporary_table] and [insert_dump], whatever they are given and
    whichever commit fails. *)
Theorem writes_keep_keys_sound (s : Session) :
  session_wf s ->
  (∀ e, session_wf (exec (insert_edge e) s)) ∧
  (∀ es, session_wf (exec (insert_edges es) s)) ∧
  (∀ e, session_wf (exec (remove_edge e) s)) ∧
  (∀ v, session_wf (exec (remove_node v) s)) ∧
  session_wf (exec remove_all s) ∧
  session_wf (exec flush_temporary_table s) ∧
  (∀ dump, session_wf (exec (insert_dump dump) s)).
Proof.
  intros Hs. unfold exec.
  split; [| split; [| split; [| split; [| split; [| split]]]]];
    intros; revert s Hs.
  - apply preserves_bind; [apply preserves_merge | intros ?; apply preserves_commit].
  - apply preserves_insert_edges.
  - unfold remove_edge.
    destruct (decide (is_Some (e !! "_id"%string))).
    + destruct (getitem e "_id"); [apply preserves_ret |].
      apply preserves_bind; [apply preserves_delete | intros ?].
      apply preserves_bind; [apply preserves_commit | intros ?; apply preserves_ret].
    + destruct (getitem e "v_from"); [apply preserves_ret |].
      destruct (getitem e "v_to"); [apply preserves_ret |].
      apply preserves_bind; [apply preserves_delete | intros ?].
      apply preserves_bind; [apply preserves_commit | intros ?; apply preserves_ret].
  - apply preserves_try_except.
    + apply preserves_bind; [apply preserves_delete | intros ?].
      apply preserves_bind; [apply preserves_commit | intros ?; apply preserves_ret].
    + intros ?. apply preserves_bind; [apply preserves_rollback | intros ?; apply preserves_ret].
  - apply preserves_try_except.
    + apply preserves_bind; [apply preserves_delete | intros ?].
      apply preserves_bind; [apply preserves_delete | intros ?].
      apply preserves_bind; [apply preserves_commit | intros ?; apply preserves_ret].
    + intros ?. apply preserves_bind; [apply preserves_rollback | intros ?; apply preserves_ret].
  - apply preserves_bind; [apply preserves_truncate | intros ?; apply preserves_commit].
  - apply preserves_try_except.
    + apply preserves_bind; [apply preserves_query | intros ?].
      apply preserves_bind.
      { apply preserves_for_each. intros es.
        apply preserves_bind; [apply preserves_insert_edges | intros ?; apply preserves_ret]. }
      intros ?. apply preserves_bind; [apply preserves_commit | intros ?].
      apply preserves_bind; [apply preserves_insert_table | intros ?].
      apply preserves_bind; [| intros ?].
      { apply preserves_bind; [apply preserves_truncate | intros ?; apply preserves_commit]. }
      apply preserves_bind; [apply preserves_query | intros ?; apply preserves_ret].
    + intros ?. apply preserves_bind; [apply preserves_rollback | intros ?; apply preserves_ret].
Qed.

Lemma writes_keep_keys_sound_witness :
  session_wf (exec (insert_edges [Plain (mkEdge None 5 6 one None);
                                  Mapped (EdgeSQL, row 2 2 5 two)])
                   (session_over sample_rows [true])).
Proof.
  destruct (writes_keep_keys_sound (session_over sample_rows [true]))
    as (_ & H & _).
  - assert (Hk : keyed sample_rows).
    { split; [vm_compute; repeat constructor; not_in_list |].
      repeat constructor; cbn; eauto. }
    repeat split; first [exact Hk | apply keyed_nil
                        | apply (proj1 Hk) | apply (proj2 Hk) | constructor].
  - apply H.
Defined.

(** ** Bulk load of records *)

Section Stuck.
Context {A B : Type}.

Lemma keeps_stuck_ret (a : A) : keeps_stuck (ret a).
Proof. now intros s Hs. Qed.

(** What follows a computation that sticks cannot undo it. *)
Lemma sticks_bind (m : M A) (k : A -> M B) (s : Session) :
  sticks m s -> (∀ a, keeps_stuck (k a)) -> sticks (bind m k) s.
Proof.
  unfold sticks, bind. intros [Hc Hn] Hk.
  destruct (m s) as [[a | e] s']; cbn in *; [| now split].
  destruct (Hk a s' Hn) as [Hc' Hn']. split; [congruence | exact Hn'].
Qed.

Lemma sticks_try_except (m : M A) (h : exn -> M A) (s : Session) :
  sticks m s -> (∀ e, keeps_stuck (h e)) -> sticks (try_except m h) s.
Proof.
  unfold sticks, try_except. intros [Hc Hn] Hh.
  destruct (m s) as [[a | e] s']; cbn in *; [now split |].
  destruct (Hh e s' Hn) as [Hc' Hn']. split; [congruence | exact Hn'].
Qed.

Lemma sticks_after_return (m : M A) (k : A -> M B) (a : A) (s : Session) :
  m s = (Return a, s) -> sticks (k a) s -> sticks (bind m k) s.
Proof. intros E H. unfold sticks, bind. now rewrite E. Qed.

Lemma keeps_stuck_bind (m : M A) (k : A -> M B) :
  keeps_stuck m -> (∀ a, keeps_stuck (k a)) -> keeps_stuck (bind m k).
Proof. intros Hm Hk s Hs. apply sticks_bind; auto. Qed.

Lemma keeps_stuck_try_except (m : M A) (h : exn -> M A) :
  keeps_stuck m -> (∀ e, keeps_stuck (h e)) -> keeps_stuck (try_except m h).
Proof. intros Hm Hh s Hs. apply sticks_try_except; auto. Qed.

Lemma keeps_stuck_send (m : M A) : keeps_stuck m -> keeps_stuck (send m).
Proof.
  intros Hm s Hs. unfold sticks, send.
  destruct (status s) eqn:E; [now apply Hm | now apply Hm | now split].
Qed.
End Stuck.

Lemma keeps_stuck_for_each {A} (xs : list A) (body : A -> M unit) :
  (∀ x, keeps_stuck (body x)) -> keeps_stuck (for_each xs body).
Proof.
  intros Hb. induction xs as [| x xs IH]; cbn [for_each].
  - apply keeps_stuck_ret.
  - apply keeps_stuck_bind; [apply Hb | intros _; apply IH].
Qed.

Lemma keeps_stuck_flush : keeps_stuck session_flush.
Proof.
  intros s Hs. unfold sticks, session_flush, needs_rollback in *.
  destruct (status s) as [| | [|]] eqn:E; try discriminate; cbn; now rewrite ?E.
Qed.

Lemma keeps_stuck_guard {A} (m : M A) : keeps_stuck m -> keeps_stuck (guard m).
Proof.
  intros Hm. apply keeps_stuck_bind; [apply keeps_stuck_flush |].
  intros _. now apply keeps_stuck_send.
Qed.

Lemma keeps_stuck_set_current {A} (a : A) (f : Session -> Tables) :
  keeps_stuck (fun s => (Return a, set_current (f s) s)).
Proof. now intros s Hs. Qed.

Lemma keeps_stuck_merge (m : entity) : keeps_stuck (session_merge m).
Proof.
  apply keeps_stuck_bind; [apply keeps_stuck_flush | intros _].
  destruct (_id (snd m)).
  - apply keeps_stuck_send. now intros s Hs.
  - intros s Hs. unfold sticks, add_pending, needs_rollback in *. cbn.
    now destruct (status s).
Qed.

Lemma keeps_stuck_commit : keeps_stuck session_commit.
Proof.
  intros s Hs. unfold sticks, session_commit, needs_rollback in *.
  destruct (status s) eqn:E; [discriminate | |].
  - now destruct (faults s) as [| [|] fs].
  - cbn. now rewrite E.
Qed.

Lemma keeps_stuck_query {A} (q : Tables -> A) : keeps_stuck (session_query q).
Proof. apply keeps_stuck_guard. now intros s Hs. Qed.

Lemma keeps_stuck_execute (stmt : statement) : keeps_stuck (session_execute stmt).
Proof.
  apply keeps_stuck_send. intros s Hs. unfold sticks.
  destruct stmt as [target source | table].
  - now destruct (class_of_table target), (class_of_table source).
  - now destruct (class_of_table table).
Qed.

Lemma keeps_stuck_insert_edges (es : list edge_arg) : keeps_stuck (insert_edges es).
Proof.
  apply keeps_stuck_bind.
  - apply keeps_stuck_for_each. intros e. apply keeps_stuck_merge.
  - intros _. apply keeps_stuck_try_except.
    + apply keeps_stuck_bind; [apply keeps_stuck_commit | intros _; apply keeps_stuck_ret].
    + intros _. apply keeps_stuck_ret.
Qed.

(** A batch that starts with a record without primary key sticks. *)
Lemma insert_edges_sticks (e : edge_arg) (es : list edge_arg) (s : Session) :
  active s -> ¬ with_key e -> sticks (insert_edges (e :: es)) s.
Proof.
  intros Ha He.
  destruct (session_merge_keyless _ s Ha (keyless_converted e He)) as [Em Hst].
  unfold insert_edges. cbn [for_each]. apply sticks_bind.
  - apply sticks_bind.
    + unfold sticks. rewrite Em. cbn [snd]. unfold needs_rollback.
      now rewrite Hst.
    + intros _. apply keeps_stuck_for_each. intros x. apply keeps_stuck_merge.
  - intros _. apply keeps_stuck_try_except.
    + apply keeps_stuck_bind; [apply keeps_stuck_commit | intros _; apply keeps_stuck_ret].
    + intros _. apply keeps_stuck_ret.
Qed.

(** The chunks of a dump of records start with a record. *)
Lemma chunks_plain (dump : list edge_arg) :
  dump ≠ [] -> Forall is_plain dump ->
  ∃ e c cs, chunks dump __max_batch_size__ = (Plain e :: c) :: cs.
Proof.
  intros Hd Hp.
  pose proof (concat_chunks __max_batch_size__ dump) as Hc.
  pose proof (chunks_bounded __max_batch_size__ dump) as Hb.
  destruct (chunks dump __max_batch_size__) as [| c cs].
  - now symmetry in Hc.
  - apply Forall_cons in Hb as [Hb _]; [| unfold __max_batch_size__; lia].
    destruct c as [| x c]; [cbn in Hb; lia |].
    assert (Hx : is_plain x).
    { rewrite Forall_forall in Hp. apply Hp. rewrite <- Hc. cbn. left. }
    destruct x as [m | e]; [done |]. now exists e, c, cs.
Qed.

(** X22.  [insert_dump] stores no record that is not an instance of a
    mapped class: [_to_sql] gives it no primary key and the store refuses
    the row, at the next merge of its chunk or at the commit of the chunk.
    For every dump of such records that is not empty and every session, 0
    is returned and the database is as before, what was in flight being
    rolled back. *)
Theorem insert_dump_stores_no_record (dump : list edge_arg) (s : Session) :
  dump ≠ [] -> Forall is_plain dump ->
  fst (insert_dump dump s) = Return 0 ∧
  committed (exec (insert_dump dump) s) = committed s ∧
  current (exec (insert_dump dump) s) = committed s.
Proof.
  intros Hd Hp. split; [apply insert_dump_returns_zero |].
  destruct (chunks_plain dump Hd Hp) as (e & c & cs & Hc).
  unfold exec, insert_dump. rewrite Hc.
  lazymatch goal with
  | |- context [try_except ?m _ s] =>
      assert (Hr : raises m); [| assert (Hs : sticks m s)]
  end.
  { do 3 (apply bind_raises_r; intros ?).
    apply bind_raises_l. intros s'. eexists _, _. apply insert_table_raises. }
  { assert (Hrest : ∀ cnt : Z, keeps_stuck
      (for_each ((Plain e :: c) :: cs)
         (fun es => insert_edges ((fun e => Mapped (_to_sql e e_type_default)) <$> es) ;;
                    ret tt) ;;
       session_commit ;;
       insert_table (__tablename__ EdgeNew) ;;
       flush_temporary_table ;;
       cnt' <- count_edges ;;
       ret (cnt' - cnt))).
    { intros cnt. apply keeps_stuck_bind.
      { apply keeps_stuck_for_each. intros es.
        apply keeps_stuck_bind; [apply keeps_stuck_insert_edges |].
        intros _. apply keeps_stuck_ret. }
      intros _. apply keeps_stuck_bind; [apply keeps_stuck_commit | intros _].
      apply keeps_stuck_bind.
      { intros s' Hs'. unfold sticks. now rewrite insert_table_raises. }
      intros _. apply keeps_stuck_bind.
      { apply keeps_stuck_bind; [apply keeps_stuck_execute |].
        intros _. apply keeps_stuck_commit. }
      intros _. apply keeps_stuck_bind; [apply keeps_stuck_query |].
      intros ?. apply keeps_stuck_ret. }
    destruct (needs_rollback s) eqn:En.
    - apply keeps_stuck_bind; [apply keeps_stuck_query | exact Hrest | exact En].
    - eapply sticks_after_return;
        [unfold count_edges; now apply session_query_active |].
      apply sticks_bind.
      + cbn [for_each]. apply sticks_bind.
        * apply sticks_bind; [| intros _; apply keeps_stuck_ret].
          rewrite fmap_cons. apply insert_edges_sticks; [exact En |].
          apply plain_keyless.
        * intros _. apply keeps_stuck_for_each. intros es.
          apply keeps_stuck_bind; [apply keeps_stuck_insert_edges |].
          intros _. apply keeps_stuck_ret.
      + intros _. apply keeps_stuck_bind; [apply keeps_stuck_commit | intros _].
        apply keeps_stuck_bind.
        { intros s' Hs'. unfold sticks. now rewrite insert_table_raises. }
        intros _. apply keeps_stuck_bind.
        { apply keeps_stuck_bind; [apply keeps_stuck_execute |].
          intros _. apply keeps_stuck_commit. }
        intros _. apply keeps_stuck_bind; [apply keeps_stuck_query |].
        intros ?. apply keeps_stuck_ret. }
  destruct Hs as [Hcm _]. destruct (Hr s) as (x & s' & E).
  unfold try_except. rewrite E in *. cbn [snd] in Hcm.
  unfold bind, session_rollback, ret, mkSession. cbn [snd committed current].
  now split.
Qed.

Lemma insert_dump_stores_no_record_witness :
  fst (insert_dump [Plain (mkEdge None 5 6 one None);
                    Plain (mkEdge (Some 1) 6 7 two None)] sample_session) =
    Return 0 ∧
  committed (exec (insert_dump [Plain (mkEdge None 5 6 one None);
                                Plain (mkEdge (Some 1) 6 7 two None)])
                  sample_session) = mkTables sample_rows [].
Proof.
  destruct (insert_dump_stores_no_record
              [Plain (mkEdge None 5 6 one None); Plain (mkEdge (Some 1) 6 7 two None)]
              sample_session) as (E1 & E2 & _).
  - discriminate.
  - repeat constructor.
  - split; [exact E1 | exact E2].
Defined.
